(** * Text normalisation of the PDF-to-text converter

    A shallow embedding of [removeRepeatedLines] and of the cleaning
    pipeline inside [extractTextFromPDF], with the JavaScript string and
    regular-expression primitives they rely on.

    A JavaScript string is a sequence of UTF-16 code units; the regular
    expressions of the source carry only the [g] flag, so they match code
    unit by code unit.  A string is therefore a [list N]. *)

From Stdlib Require Import NArith List Bool Ascii String Lia.
From stdpp Require Import base list gmap.

Local Open Scope N_scope.

(** ** Strings *)

Definition jsstring := list N.

(** Source text of ASCII literals. *)
Definition js (s : string) : jsstring :=
  map N_of_ascii (list_ascii_of_string s).

Definition LF : N := 10.
Definition SP : N := 32.
Definition HYPHEN : N := 45.

(** Code units of the accented letters named in the source. *)
Definition A_acute : N := 193.
Definition E_acute : N := 201.
Definition I_acute : N := 205.
Definition O_acute : N := 211.
Definition U_acute : N := 218.
Definition N_tilde : N := 209.
Definition a_acute : N := 225.
Definition e_acute : N := 233.
Definition i_acute : N := 237.
Definition o_acute : N := 243.
Definition u_acute : N := 250.
Definition n_tilde : N := 241.

Definition in_range (lo hi c : N) : bool := (lo <=? c) && (c <=? hi).

(** [\s], which is also the set stripped by [String.prototype.trim]:
    WhiteSpace and LineTerminator of ECMAScript. *)
Definition is_space (c : N) : bool :=
  in_range 9 13 c || (c =? 32) || (c =? 160) || (c =? 5760)
  || in_range 8192 8202 c || (c =? 8232) || (c =? 8233) || (c =? 8239)
  || (c =? 8287) || (c =? 12288) || (c =? 65279).

(** [\w] without the [u] and [i] flags: [A-Za-z0-9_]. *)
Definition is_word (c : N) : bool :=
  in_range 65 90 c || in_range 97 122 c || in_range 48 57 c || (c =? 95).

(** The class [A-Za-zÁÉÍÓÚÑa-záéíóú] of the letter-run expression. *)
Definition is_letter (c : N) : bool :=
  in_range 65 90 c || in_range 97 122 c
  || (c =? A_acute) || (c =? E_acute) || (c =? I_acute) || (c =? O_acute)
  || (c =? U_acute) || (c =? N_tilde)
  || in_range 97 122 c
  || (c =? a_acute) || (c =? e_acute) || (c =? i_acute) || (c =? o_acute)
  || (c =? u_acute).

(** ** Regular expressions

    A backtracking matcher in continuation-passing style, after the
    pattern semantics of ECMAScript: alternatives are tried in order,
    quantifiers are greedy, and an iteration of [*] that consumes nothing
    is rejected. *)

Inductive regex : Type :=
| RChar (c : N)
| RClass (p : N -> bool)
| RSeq (r1 r2 : regex)
| RRep (min : nat) (r : regex)
| RGroup (r : regex)
| RWordB.

(** Matcher state: the code unit before the current position, the input
    still to read, the number of code units consumed since the start of
    the match, and the captures closed so far, in order of closing. *)
Record mstate : Type := MState {
  ms_prev : option N;
  ms_rest : jsstring;
  ms_len : nat;
  ms_caps : list jsstring
}.

Definition opt_word (o : option N) : bool :=
  match o with Some c => is_word c | None => false end.

Definition step_char (p : N -> bool) (st : mstate)
    (k : mstate -> option mstate) : option mstate :=
  match ms_rest st with
  | c :: rest' =>
      if p c then k (MState (Some c) rest' (S (ms_len st)) (ms_caps st))
      else None
  | [] => None
  end.

Definition at_boundary (st : mstate) : bool :=
  xorb (opt_word (ms_prev st)) (opt_word (head (ms_rest st))).

Definition close_group (st0 st1 : mstate) : mstate :=
  MState (ms_prev st1) (ms_rest st1) (ms_len st1)
         (ms_caps st1 ++ [take (ms_len st1 - ms_len st0)%nat (ms_rest st0)]).

Fixpoint rmatch (r : regex) (st : mstate)
    (k : mstate -> option mstate) {struct r} : option mstate :=
  match r with
  | RChar c => step_char (N.eqb c) st k
  | RClass p => step_char p st k
  | RSeq r1 r2 => rmatch r1 st (fun st' => rmatch r2 st' k)
  | RGroup r1 => rmatch r1 st (fun st' => k (close_group st st'))
  | RWordB => if at_boundary st then k st else None
  | RRep min r1 =>
      let fix star (fuel : nat) (st : mstate) {struct fuel} : option mstate :=
        match fuel with
        | O => k st
        | S fuel' =>
            match rmatch r1 st (fun st' =>
                    if (ms_len st <? ms_len st')%nat then star fuel' st'
                    else None) with
            | Some res => Some res
            | None => k st
            end
        end in
      let fix mand (n : nat) (st : mstate) {struct n} : option mstate :=
        match n with
        | O => star (List.length (ms_rest st)) st
        | S n' => rmatch r1 st (mand n')
        end in
      mand min st
  end.

(** One attempt at the current position: length of the match and its
    captures. *)
Definition match_here (r : regex) (prev : option N) (s : jsstring)
    : option (nat * list jsstring) :=
  match rmatch r (MState prev s 0 []) Some with
  | Some st => Some (ms_len st, ms_caps st)
  | None => None
  end.

(** [String.prototype.replace] with a global expression.  [skip] counts
    the code units of the current match that are still to be passed over;
    an empty match is followed by one copied code unit. *)
Fixpoint replace_go (r : regex) (f : jsstring -> list jsstring -> jsstring)
    (skip : nat) (prev : option N) (s : jsstring) {struct s} : jsstring :=
  match skip with
  | S n =>
      match s with
      | [] => []
      | c :: s' => replace_go r f n (Some c) s'
      end
  | O =>
      match match_here r prev s with
      | Some (len, caps) =>
          f (take len s) caps ++
          match s with
          | [] => []
          | c :: s' =>
              match len with
              | O => c :: replace_go r f 0 (Some c) s'
              | S n => replace_go r f n (Some c) s'
              end
          end
      | None =>
          match s with
          | [] => []
          | c :: s' => c :: replace_go r f 0 (Some c) s'
          end
      end
  end.

Definition replace_all (r : regex) (f : jsstring -> list jsstring -> jsstring)
    (s : jsstring) : jsstring :=
  replace_go r f 0 None s.

(** ** String primitives *)

(** [String.prototype.trim]. *)
Fixpoint trim_start (s : jsstring) : jsstring :=
  match s with
  | c :: s' => if is_space c then trim_start s' else s
  | [] => []
  end.

Definition trim_end (s : jsstring) : jsstring :=
  reverse (trim_start (reverse s)).

Definition trim (s : jsstring) : jsstring := trim_end (trim_start s).

(** [String.prototype.split] with a one-unit separator. *)
Fixpoint split_on (sep : N) (s : jsstring) : list jsstring :=
  match s with
  | [] => [[]]
  | c :: s' =>
      if c =? sep then [] :: split_on sep s'
      else match split_on sep s' with
           | l :: ls => (c :: l) :: ls
           | [] => [[c]]
           end
  end.

(** [Array.prototype.join]. *)
Fixpoint join (sep : jsstring) (ls : list jsstring) : jsstring :=
  match ls with
  | [] => []
  | [l] => l
  | l :: ls' => l ++ sep ++ join sep ls'
  end.

(** ** The [frequency] object of [removeRepeatedLines]

    [const frequency = {}] is an ordinary object: besides its own
    properties it inherits those of [Object.prototype].  Reading
    [frequency[line]] for a line that is the name of such a property, and
    that has not been written yet, yields the inherited function (or, for
    [__proto__], the prototype object itself). *)

(** The values the object can hold under a key: [FNum n] is a count
    (exact, as counts stay far below 2^53); [FOther] is an inherited
    function or object, or the string obtained by adding 1 to one, which
    is truthy and is not a number under [ToNumber]. *)
Inductive fval : Type :=
| FNum (n : N)
| FOther.

Definition proto_name : jsstring := js "__proto__".

(** The property names of [Object.prototype] (ECMAScript, with Annex B). *)
Definition Object_prototype_keys : list jsstring :=
  [ js "constructor"; js "hasOwnProperty"; js "isPrototypeOf";
    js "propertyIsEnumerable"; js "toLocaleString"; js "toString";
    js "valueOf"; js "__defineGetter__"; js "__defineSetter__";
    js "__lookupGetter__"; js "__lookupSetter__"; proto_name ].

Definition inherited (key : jsstring) : bool :=
  bool_decide (key ∈ Object_prototype_keys).

(** [obj[key]]: [None] is [undefined]. *)
Definition obj_get (own : gmap jsstring fval) (key : jsstring) : option fval :=
  match own !! key with
  | Some v => Some v
  | None => if inherited key then Some FOther else None
  end.

(** [obj[key] = v]: the [__proto__] setter ignores a value that is neither
    an object nor [null]; any other key becomes an own property. *)
Definition obj_set (own : gmap jsstring fval) (key : jsstring) (v : fval)
    : gmap jsstring fval :=
  if bool_decide (key = proto_name) then own else <[key := v]> own.

(** [(x || 0) + 1]. *)
Definition or_zero_plus_one (x : option fval) : fval :=
  match x with
  | None => FNum 1
  | Some (FNum n) => if n =? 0 then FNum 1 else FNum (n + 1)
  | Some FOther => FOther
  end.

(** [x > 2]. *)
Definition greater_than_two (x : option fval) : bool :=
  match x with
  | Some (FNum n) => 2 <? n
  | _ => false
  end.

(** ** [removeRepeatedLines] *)

Definition nonempty (l : jsstring) : bool :=
  match l with [] => false | _ => true end.

Definition originalLines (text : jsstring) : list jsstring :=
  filter (fun l => nonempty l = true) (map trim (split_on LF text)).

(** The first loop: push a line unless it equals the last one pushed. *)
Definition push_unless_last (deduped : list jsstring) (line : jsstring)
    : list jsstring :=
  match last deduped with
  | Some l => if bool_decide (l = line) then deduped else deduped ++ [line]
  | None => deduped ++ [line]
  end.

Definition dedupedLines (lines : list jsstring) : list jsstring :=
  fold_left push_unless_last lines [].

(** The second loop. *)
Definition count_line (frequency : gmap jsstring fval) (line : jsstring)
    : gmap jsstring fval :=
  obj_set frequency line (or_zero_plus_one (obj_get frequency line)).

Definition frequencyOf (lines : list jsstring) : gmap jsstring fval :=
  fold_left count_line lines ∅.

(** The callback of the final [filter]. *)
Definition keep_line (frequency : gmap jsstring fval) (line : jsstring)
    : bool :=
  if greater_than_two (obj_get frequency line)
     && (List.length line <? 80)%nat
  then false else true.

Definition filteredLines (text : jsstring) : list jsstring :=
  let original := originalLines text in
  let frequency := frequencyOf original in
  filter (fun l => keep_line frequency l = true) (dedupedLines original).

Definition removeRepeatedLines (text : jsstring) : jsstring :=
  join [LF] (filteredLines text).

(** ** The expressions of [extractTextFromPDF] *)

Definition rs : regex := RClass is_space.
Definition rw : regex := RClass is_word.
Definition rl : regex := RClass is_letter.

(** [/\n\s*\n/g] *)
Definition re_blank : regex :=
  RSeq (RChar LF) (RSeq (RRep 0 rs) (RChar LF)).

(** [/\b(?:[A-Za-zÁÉÍÓÚÑa-záéíóú]\s+){1,}[A-Za-zÁÉÍÓÚÑa-záéíóú]\b/g] *)
Definition re_letters : regex :=
  RSeq RWordB
    (RSeq (RRep 1 (RSeq rl (RRep 1 rs)))
       (RSeq rl RWordB)).

(** [/\s+/g] *)
Definition re_spaces : regex := RRep 1 rs.

(** [/\s{2,}/g] *)
Definition re_spaces2 : regex := RRep 2 rs.

(** [/-\s*\n\s*/g] *)
Definition re_hyphen_eol : regex :=
  RSeq (RChar HYPHEN) (RSeq (RRep 0 rs) (RSeq (RChar LF) (RRep 0 rs))).

(** [/(\w)-\s+(\w)/g] *)
Definition re_hyphen_mid : regex :=
  RSeq (RGroup rw) (RSeq (RChar HYPHEN) (RSeq (RRep 1 rs) (RGroup rw))).

(** Replacement by a fixed string, and by ['$1$2']. *)
Definition by_const (t : jsstring) : jsstring -> list jsstring -> jsstring :=
  fun _ _ => t.

Definition capture (n : nat) (caps : list jsstring) : jsstring :=
  default [] (caps !! n).

Definition by_groups_1_2 : jsstring -> list jsstring -> jsstring :=
  fun _ caps => capture 0 caps ++ capture 1 caps.

(** [match => match.replace(/\s+/g, '')] *)
Definition strip_spaces : jsstring -> list jsstring -> jsstring :=
  fun m _ => replace_all re_spaces (by_const []) m.

(** Paso 1 *)
Definition collapseBlankLines (s : jsstring) : jsstring :=
  replace_all re_blank (by_const [LF; LF]) s.

Definition paso1 (s : jsstring) : jsstring := trim (collapseBlankLines s).

(** Paso 2 *)
Definition paso2 (s : jsstring) : jsstring :=
  replace_all re_letters strip_spaces s.

(** Paso 3 *)
Definition paso3 (s : jsstring) : jsstring :=
  replace_all re_spaces2 (by_const [SP]) s.

(** Paso 4: the end-of-line rule, then the same-line rule. *)
Definition hyphen_eol (s : jsstring) : jsstring :=
  replace_all re_hyphen_eol (by_const []) s.

Definition hyphen_mid (s : jsstring) : jsstring :=
  replace_all re_hyphen_mid by_groups_1_2 s.

Definition paso4 (s : jsstring) : jsstring := hyphen_mid (hyphen_eol s).

(** The cleaning of [fullText], Paso 1 to Paso 5. *)
Definition cleanText (fullText : jsstring) : jsstring :=
  removeRepeatedLines (paso4 (paso3 (paso2 (paso1 fullText)))).

(** ** [extractTextFromPDF]

    A page is the list of the [str] fields of its text items.  The loop
    appends, for every page, the items joined by a space and then two
    line feeds. *)

Definition page := list jsstring.

Definition pageText (p : page) : jsstring := join [SP] p.

Definition fullTextOf (pages : list page) : jsstring :=
  fold_left (fun fullText p => fullText ++ pageText p ++ [LF; LF]) pages [].

(** How a call ends: with the cleaned text, or with the error of the
    [catch] clause, [new Error('Error al extraer el texto del PDF')]. *)
Inductive outcome : Type :=
| Returned (text : jsstring)
| Thrown.

(** [None] stands for a document that pdf.js fails to load or to read;
    the [catch] clause turns that into the thrown error. *)
Definition extractTextFromPDF (pdf : option (list page)) : outcome :=
  match pdf with
  | Some pages => Returned (cleanText (fullTextOf pages))
  | None => Thrown
  end.

(** The pipeline on one page holding one text item. *)
Definition normalize (x : jsstring) : jsstring :=
  cleanText (fullTextOf [[x]]).

(** ** The cleaning steps of [index.js] *)

(** [.replace(/\s+/g, ' ')] *)
Definition squeeze (s : jsstring) : jsstring :=
  replace_all re_spaces (by_const [SP]) s.

(** The class [[\u0000-\u0008\u000B\u000C\u000E-\u001F\u007F]]. *)
Definition is_control (c : N) : bool :=
  in_range 0 8 c || (c =? 11) || (c =? 12) || in_range 14 31 c || (c =? 127).

Definition re_control : regex := RClass is_control.

(** [.replace(/[\u0000-\u0008\u000B\u000C\u000E-\u001F\u007F]/g, '')] *)
Definition strip_control (s : jsstring) : jsstring :=
  replace_all re_control (by_const []) s.

(** ** The [/convert] handler

    What the callback given to [upload.single('pdfFile')] answers.  The
    request is taken as multer and Express hand it over: the error of the
    upload if any, the uploaded file if any, and the [format] of the query
    string.  The name without extension that [path.basename] and
    [path.extname] compute, and the ISO string of the current date, are
    parameters.  Every step of the handler after the two checks runs
    inside its [try]: besides the extraction, [res.setHeader] is the one
    that can throw there, on a header value that Node refuses, and the
    [catch] clause then answers 500. *)

(** [String.prototype.includes]. *)
Fixpoint starts_with (p s : jsstring) : bool :=
  match p, s with
  | [], _ => true
  | a :: p', b :: s' => (a =? b) && starts_with p' s'
  | _ :: _, [] => false
  end.

Fixpoint includes (needle hay : jsstring) : bool :=
  starts_with needle hay
  || match hay with
     | [] => false
     | _ :: hay' => includes needle hay'
     end.

(** The error handed to the callback: a [MulterError] with the code
    [LIMIT_FILE_SIZE], another [MulterError] with its message, or any
    other error. *)
Inductive upload_error : Type :=
| LimitFileSize
| OtherMulterError (message : jsstring)
| OtherUploadError.

(** [req.file]: the fields the handler reads, and what pdf.js makes of
    the buffer ([None] when it fails). *)
Record upload : Type := Upload {
  mimetype : jsstring;
  originalname : jsstring;
  document : option (list page)
}.

(** [None] for [req.query.format] stands for a value that is absent or
    not a string. *)
Record request : Type := Request {
  req_error : option upload_error;
  req_file : option upload;
  req_format : option jsstring
}.

(** The three kinds of answer: [{ success: false, error }], the JSON with
    [success: true], and the plain-text attachment with its
    [Content-Disposition] header. *)
Inductive body : Type :=
| JsonError (error : jsstring)
| JsonText (filename : jsstring) (characters : nat) (text : jsstring)
| Attachment (disposition : jsstring) (text : jsstring).

Record response : Type := Response {
  status : N;
  content : body
}.

Definition COLON : N := 58.
Definition DOT : N := 46.
Definition QUOTE : N := 34.

(** [/[:.]/g] *)
Definition colon_or_dot (c : N) : bool := (c =? COLON) || (c =? DOT).

(** [new Date().toISOString().replace(/[:.]/g, '-')] *)
Definition timestampOf (iso : jsstring) : jsstring :=
  replace_all (RClass colon_or_dot) (by_const [HYPHEN]) iso.

Definition outputFilename (fileBaseName iso : jsstring) : jsstring :=
  fileBaseName ++ [HYPHEN] ++ timestampOf iso ++ js ".txt".

(** [`attachment; filename="${outputFilename}"`] *)
Definition contentDisposition (outputFilename : jsstring) : jsstring :=
  js "attachment; filename=" ++ QUOTE :: outputFilename ++ [QUOTE].

(** The code units Node accepts in the value of a header: the tab and the
    ranges 0x20-0x7E and 0x80-0xFF (its check is the expression
    [/[^\t\x20-\x7e\x80-\xff]/]).  [res.setHeader] throws on a value
    that holds any other code unit. *)
Definition header_char (c : N) : bool :=
  (c =? 9) || in_range 32 126 c || in_range 128 255 c.

Definition header_value (value : jsstring) : bool := forallb header_char value.

Definition msg_too_large : jsstring :=
  js "El archivo es demasiado grande. El l" ++ i_acute :: js "mite es 20MB.".
Definition msg_upload_failed : jsstring := js "Error al subir el archivo".
Definition msg_no_file : jsstring :=
  js "No se ha subido ning" ++ u_acute :: js "n archivo PDF".
Definition msg_not_pdf : jsstring := js "El archivo subido no es un PDF".
Definition msg_processing : jsstring :=
  js "Ocurri" ++ o_acute :: js " un error al procesar el PDF".

Definition convert (baseName : jsstring -> jsstring) (iso : jsstring)
    (req : request) : response :=
  match req_error req with
  | Some LimitFileSize => Response 400 (JsonError msg_too_large)
  | Some (OtherMulterError message) => Response 400 (JsonError message)
  | Some OtherUploadError => Response 500 (JsonError msg_upload_failed)
  | None =>
      match req_file req with
      | None => Response 400 (JsonError msg_no_file)
      | Some file =>
          if negb (includes (js "pdf") (mimetype file))
          then Response 400 (JsonError msg_not_pdf)
          else
            match extractTextFromPDF (document file) with
            | Thrown => Response 500 (JsonError msg_processing)
            | Returned extractedText =>
                let outputFilename :=
                  outputFilename (baseName (originalname file)) iso in
                let format :=
                  match req_format req with
                  | Some ((_ :: _) as f) => f
                  | _ => js "json"
                  end in
                if bool_decide (format = js "download")
                then
                  if header_value (contentDisposition outputFilename)
                  then Response 200
                         (Attachment (contentDisposition outputFilename)
                            extractedText)
                  else Response 500 (JsonError msg_processing)
                else Response 200
                       (JsonText outputFilename (length extractedText)
                          extractedText)
            end
      end
  end.

(** ** The two earlier servers of [index.js]

    [index.js] holds two further versions of the server.  Both build
    [fullText] as above and differ in the cleaning: the first replaces
    every run of white space by one space, then applies the blank-line
    expression, then trims; the second also deletes control characters
    before it trims.  [Thrown] stands for the error each version throws
    from its own [catch] clause.

    In the first version multer runs as a middleware before the handler,
    which is therefore called only when the upload went through: it takes
    [req.file] and the [format] of the query.  The handler of the second
    version is the one above with its own [extractTextFromPDF]. *)

Module Index1.

Definition cleanText (fullText : jsstring) : jsstring :=
  trim (collapseBlankLines (squeeze fullText)).

Definition extractTextFromPDF (pdf : option (list page)) : outcome :=
  match pdf with
  | Some pages => Returned (cleanText (fullTextOf pages))
  | None => Thrown
  end.

Definition msg_no_file : jsstring := js "No PDF file uploaded".
Definition msg_not_pdf : jsstring := js "Uploaded file is not a PDF".
Definition msg_processing : jsstring :=
  js "An error occurred while processing the PDF".

Definition convert (baseName : jsstring -> jsstring) (iso : jsstring)
    (req_file : option upload) (req_format : option jsstring) : response :=
  match req_file with
  | None => Response 400 (JsonError msg_no_file)
  | Some file =>
      if negb (includes (js "pdf") (mimetype file))
      then Response 400 (JsonError msg_not_pdf)
      else
        match extractTextFromPDF (document file) with
        | Thrown => Response 500 (JsonError msg_processing)
        | Returned extractedText =>
            let outputFilename :=
              outputFilename (baseName (originalname file)) iso in
            let format :=
              match req_format with
              | Some ((_ :: _) as f) => f
              | _ => js "json"
              end in
            if bool_decide (format = js "download")
            then
              if header_value (contentDisposition outputFilename)
              then Response 200
                     (Attachment (contentDisposition outputFilename)
                        extractedText)
              else Response 500 (JsonError msg_processing)
            else Response 200
                   (JsonText outputFilename (length extractedText)
                      extractedText)
        end
  end.

End Index1.

Module Index2.

Definition cleanText (fullText : jsstring) : jsstring :=
  trim (strip_control (collapseBlankLines (squeeze fullText))).

Definition extractTextFromPDF (pdf : option (list page)) : outcome :=
  match pdf with
  | Some pages => Returned (cleanText (fullTextOf pages))
  | None => Thrown
  end.

Definition convert (baseName : jsstring -> jsstring) (iso : jsstring)
    (req : request) : response :=
  match req_error req with
  | Some LimitFileSize => Response 400 (JsonError msg_too_large)
  | Some (OtherMulterError message) => Response 400 (JsonError message)
  | Some OtherUploadError => Response 500 (JsonError msg_upload_failed)
  | None =>
      match req_file req with
      | None => Response 400 (JsonError msg_no_file)
      | Some file =>
          if negb (includes (js "pdf") (mimetype file))
          then Response 400 (JsonError msg_not_pdf)
          else
            match extractTextFromPDF (document file) with
            | Thrown => Response 500 (JsonError msg_processing)
            | Returned extractedText =>
                let outputFilename :=
                  outputFilename (baseName (originalname file)) iso in
                let format :=
                  match req_format req with
                  | Some ((_ :: _) as f) => f
                  | _ => js "json"
                  end in
                if bool_decide (format = js "download")
                then
                  if header_value (contentDisposition outputFilename)
                  then Response 200
                         (Attachment (contentDisposition outputFilename)
                            extractedText)
                  else Response 500 (JsonError msg_processing)
                else Response 200
                       (JsonText outputFilename (length extractedText)
                          extractedText)
            end
      end
  end.

End Index2.

(** * Auxiliary definitions

    Functions and predicates used to state and prove the properties:
    what each expression of the source matches, written as a direct scan,
    and the shapes of text the statements speak about. *)

(** Membership in a class as inequalities on the code unit. *)
Ltac class_props H :=
  unfold is_space, is_word, is_letter, in_range, A_acute, E_acute, I_acute,
    O_acute, U_acute, N_tilde, a_acute, e_acute, i_acute, o_acute, u_acute
    in H;
  repeat rewrite ?orb_true_iff, ?andb_true_iff, ?N.eqb_eq, ?N.leb_le in H.

Ltac class_false :=
  apply not_true_iff_false; let H := fresh "H" in intro H; class_props H.

(** Greedy [p*] followed by [k], with backtracking. *)
Fixpoint star_class (p : N -> bool) (k : mstate -> option mstate)
    (pv : option N) (rest : jsstring) (len : nat) (caps : list jsstring)
    : option mstate :=
  match rest with
  | c :: rest' =>
      if p c then
        match star_class p k (Some c) rest' (S len) caps with
        | Some r => Some r
        | None => k (MState pv rest len caps)
        end
      else k (MState pv rest len caps)
  | [] => k (MState pv rest len caps)
  end.

(** Length of the longest prefix inside a class. *)
Fixpoint span_len (p : N -> bool) (s : jsstring) : nat :=
  match s with
  | c :: s' => if p c then S (span_len p s') else O
  | [] => O
  end.

(** What [match_here] keeps of a final state. *)
Definition outcome_of (o : option mstate) : option (nat * list jsstring) :=
  match o with
  | Some st => Some (ms_len st, ms_caps st)
  | None => None
  end.

(** The part [\s*\n] of the blank-line and end-of-line expressions:
    number of code units up to and including the last line feed of the
    leading run of white space. *)
Fixpoint upto_last_LF (s : jsstring) : option nat :=
  match s with
  | c :: s' =>
      if is_space c then
        match upto_last_LF s' with
        | Some n => Some (S n)
        | None => if LF =? c then Some 1%nat else None
        end
      else None
  | [] => None
  end.

(** [/\n\s*\n/] *)
Definition blank_match (s : jsstring) : option (nat * list jsstring) :=
  match s with
  | c :: s' =>
      if LF =? c then
        match upto_last_LF s' with
        | Some n => Some (S n, [])
        | None => None
        end
      else None
  | [] => None
  end.

(** [/-\s*\n\s*/] *)
Definition hyphen_eol_match (s : jsstring) : option (nat * list jsstring) :=
  match s with
  | c :: s' =>
      if HYPHEN =? c then
        match upto_last_LF s' with
        | Some n => Some (S (n + span_len is_space (drop n s')), [])
        | None => None
        end
      else None
  | [] => None
  end.

(** The part [\s*(\w)]: number of leading white-space units and the word
    unit that follows them. *)
Fixpoint word_after_spaces (s : jsstring) : option (nat * N) :=
  match s with
  | c :: s' =>
      if is_space c then
        match word_after_spaces s' with
        | Some (n, b) => Some (S n, b)
        | None => None
        end
      else if is_word c then Some (O, c) else None
  | [] => None
  end.

(** [/(\w)-\s+(\w)/] *)
Definition hyphen_mid_match (s : jsstring) : option (nat * list jsstring) :=
  match s with
  | a :: h :: c :: s' =>
      if is_word a && (HYPHEN =? h) && is_space c then
        match word_after_spaces s' with
        | Some (n, b) => Some ((n + 4)%nat, [[a]; [b]])
        | None => None
        end
      else None
  | _ => None
  end.

(** Number of occurrences of a line in a list of lines. *)
Definition occurrences (line : jsstring) (lines : list jsstring) : nat :=
  length (filter (fun l => l = line) lines).

(** Text made of the given lines. *)
Definition text_of (ls : list jsstring) : jsstring := join [LF] ls.

(** The words of the hyphenation examples. *)
Definition verificacion : jsstring := js "verificaci" ++ o_acute :: js "n".
Definition cion : jsstring := js "ci" ++ o_acute :: js "n".

(** White space at an end of a text, if there is a unit there at all. *)
Definition opt_space (o : option N) : bool :=
  match o with Some c => is_space c | None => false end.

(** No white space at either end. *)
Definition edge_free (s : jsstring) : Prop :=
  opt_space (head s) = false /\ opt_space (last s) = false.

(** The lines of a text; the empty text has none. *)
Definition textLines (s : jsstring) : list jsstring :=
  match s with
  | [] => []
  | _ => split_on LF s
  end.

(** What every line of the working set satisfies. *)
Definition clean_line (l : jsstring) : Prop :=
  l <> [] /\ trim l = l /\ LF ∉ l.

(** How a count sits in the object: no own property before the first
    occurrence, the number afterwards. *)
Definition stored_count (n : nat) : option fval :=
  match n with
  | O => None
  | S _ => Some (FNum (N.of_nat n))
  end.

(** [/\s{2,}/] *)
Definition spaces2_match (s : jsstring) : option (nat * list jsstring) :=
  match s with
  | a :: b :: s' =>
      if is_space a && is_space b
      then Some (S (S (span_len is_space s')), [])
      else None
  | _ => None
  end.

(** No two neighbouring units of white space. *)
Fixpoint single_spaced (s : jsstring) : bool :=
  match s with
  | a :: t => negb (is_space a && opt_space (head t)) && single_spaced t
  | [] => true
  end.

(** One or more units of white space and then a word character. *)
Definition word_after_gap (q : jsstring) : bool :=
  match q with
  | c :: q' =>
      is_space c &&
      match word_after_spaces q' with Some _ => true | None => false end
  | [] => false
  end.

(** The greedy star of the matcher, on its own. *)
Definition star_fuel
    (body : mstate -> (mstate -> option mstate) -> option mstate)
    (k : mstate -> option mstate) : nat -> mstate -> option mstate :=
  fix star (fuel : nat) (st : mstate) {struct fuel} : option mstate :=
    match fuel with
    | O => k st
    | S fuel' =>
        match body st (fun st' =>
                if (ms_len st <? ms_len st')%nat then star fuel' st'
                else None) with
        | Some res => Some res
        | None => k st
        end
    end.

(** The part [[L]\b]. *)
Definition final_letter (s : jsstring) : option nat :=
  match s with
  | c :: s' =>
      if is_letter c && xorb (is_word c) (opt_word (head s'))
      then Some 1%nat else None
  | [] => None
  end.

(** The part [\s*(?:[L]\s+)*[L]\b], read after a letter and one unit of
    white space: number of code units up to the end of the match. *)
Fixpoint gap_scan (s : jsstring) : option nat :=
  match s with
  | c :: s' =>
      if is_space c then option_map S (gap_scan s')
      else
        match
          match s' with
          | d :: s'' =>
              if is_letter c && is_space d
              then option_map (fun n => S (S n)) (gap_scan s'')
              else None
          | [] => None
          end
        with
        | Some n => Some n
        | None => final_letter (c :: s')
        end
  | [] => None
  end.

(** The part [(?:[L]\s+)*[L]\b]. *)
Definition letter_pos (s : jsstring) : option nat :=
  match
    match s with
    | c :: d :: s'' =>
        if is_letter c && is_space d
        then option_map (fun n => S (S n)) (gap_scan s'')
        else None
    | _ => None
    end
  with
  | Some n => Some n
  | None => final_letter s
  end.

(** [/\b(?:[L]\s+){1,}[L]\b/] *)
Definition letters_match (prev : option N) (s : jsstring)
    : option (nat * list jsstring) :=
  if xorb (opt_word prev) (opt_word (head s)) then
    match s with
    | c :: d :: s'' =>
        if is_letter c && is_space d
        then option_map (fun n => (S (S n), [])) (gap_scan s'')
        else None
    | _ => None
    end
  else None.

(** The two halves of the letter-run expression: [[L]\s+] and [[L]\b]. *)
Definition letter_group : regex := RSeq rl (RRep 1 rs).
Definition letter_end : regex := RSeq rl RWordB.

(** [A-Za-z]: the letters of the class that are word characters. *)
Definition ascii_letter (c : N) : bool :=
  in_range 65 90 c || in_range 97 122 c.

(** Single letters one space apart. *)
Fixpoint spaced (ls : list N) : jsstring :=
  match ls with
  | [] => []
  | [l] => [l]
  | l :: ls' => l :: SP :: spaced ls'
  end.

(** A word of two or more word characters. *)
Definition wordy (w : jsstring) : bool :=
  (2 <=? length w)%nat && forallb is_word w.

(** [/\s+/] *)
Definition spaces_match (s : jsstring) : option (nat * list jsstring) :=
  match s with
  | a :: s' =>
      if is_space a then Some (S (span_len is_space s'), []) else None
  | [] => None
  end.

(** Nothing after the run lets the match go on: no word character right
    after it, and no further single letter after white space. *)
Definition run_stops (rest : jsstring) : Prop :=
  opt_word (head rest) = false
  /\ match rest with
     | d :: r => is_space d = true -> gap_scan r = None
     | [] => True
     end.

(** No two neighbouring lines are equal. *)
Fixpoint no_adjacent_dup (l : list jsstring) : Prop :=
  match l with
  | x :: t => match t with y :: _ => x <> y | [] => True end
              /\ no_adjacent_dup t
  | [] => True
  end.

(** No line of the list occurs in it more than twice. *)
Definition at_most_twice (lines : list jsstring) : bool :=
  forallb (fun l => (occurrences l lines <=? 2)%nat) lines.

(** A line of 80 code units or more. *)
Definition long_line (l : jsstring) : Prop := (80 <= length l)%nat.

(** The code units of a text that are not white space, in order. *)
Definition visible (s : jsstring) : jsstring :=
  List.filter (fun c => negb (is_space c)) s.

(** The code units that are neither white space nor a hyphen. *)
Definition solid (s : jsstring) : jsstring :=
  List.filter (fun c => negb (is_space c) && negb (c =? HYPHEN)) s.

(** The end-of-line expression matches nowhere in the text. *)
Definition eol_free (s : jsstring) : Prop :=
  forall t1 t2, s = t1 ++ t2 -> hyphen_eol_match t2 = None.

(** Every text item of every page is white space only. *)
Definition pages_blank (pages : list page) : bool :=
  forallb (forallb (forallb is_space)) pages.

(** Every unit of white space in the text is a plain space. *)
Definition only_SP (s : jsstring) : Prop :=
  Forall (fun c => is_space c = true -> c = SP) s.

(** The code units that are neither white space nor control characters. *)
Definition printable (s : jsstring) : jsstring :=
  List.filter (fun c => negb (is_space c) && negb (is_control c)) s.

(** A one-unit class expression. *)
Definition class_match (p : N -> bool) (s : jsstring)
    : option (nat * list jsstring) :=
  match s with
  | c :: _ => if p c then Some (1%nat, []) else None
  | [] => None
  end.


(** The request passes every check of the handler and, for a download,
    the base name of the file and the date string hold only code units
    that a header value may hold. *)
Definition accepted (baseName : jsstring -> jsstring) (iso : jsstring)
    (req : request) : Prop :=
  req_error req = None
  /\ exists file pages,
       req_file req = Some file
       /\ (exists a b, mimetype file = a ++ js "pdf" ++ b)
       /\ document file = Some pages
       /\ (req_format req = Some (js "download") ->
           header_value (baseName (originalname file)) && header_value iso
           = true).

(** Two answers with the same status and the same kind of body, with the
    same file name or [Content-Disposition] header: they may differ in the
    error message or in the text. *)
Definition same_envelope (a b : response) : Prop :=
  status a = status b
  /\ match content a, content b with
     | JsonError _, JsonError _ => True
     | JsonText f _ _, JsonText g _ _ => f = g
     | Attachment d _, Attachment e _ => d = e
     | _, _ => False
     end.

(** The text an answer carries and the length it announces, if any. *)
Definition answer_text (b : body) : option (jsstring * option nat) :=
  match b with
  | JsonError _ => None
  | JsonText _ n text => Some (text, Some n)
  | Attachment _ text => Some (text, None)
  end.

(** * Properties *)

(** ** The character classes *)

Lemma space_not_word c : is_space c = true -> is_word c = false.
Proof. intros Hs. class_props Hs. class_false. lia. Qed.

Lemma word_not_space c : is_word c = true -> is_space c = false.
Proof.
  intros Hw. destruct (is_space c) eqn:E; [|reflexivity].
  apply space_not_word in E. congruence.
Qed.

Lemma hyphen_not_space : is_space HYPHEN = false.
Proof. reflexivity. Qed.

Lemma hyphen_not_word : is_word HYPHEN = false.
Proof. reflexivity. Qed.

Lemma LF_is_space : is_space LF = true.
Proof. reflexivity. Qed.

Lemma eqb_LF_space c : (LF =? c) = true -> is_space c = true.
Proof. intros H. apply N.eqb_eq in H. subst. reflexivity. Qed.

(** ** The matcher on the shapes used by the source *)

Lemma rmatch_star_unfold p k pv c rest len caps :
  rmatch (RRep 0 (RClass p)) (MState pv (c :: rest) len caps) k
  = if p c then
      match rmatch (RRep 0 (RClass p)) (MState (Some c) rest (S len) caps) k
      with
      | Some r => Some r
      | None => k (MState pv (c :: rest) len caps)
      end
    else k (MState pv (c :: rest) len caps).
Proof.
  assert (E : (len <? S len)%nat = true) by (apply Nat.ltb_lt; lia).
  cbn [rmatch length ms_rest]. unfold step_char at 1. cbn [ms_rest ms_len ms_caps].
  destruct (p c); [|reflexivity]. rewrite E. reflexivity.
Qed.

Lemma rmatch_star_class p k pv rest len caps :
  rmatch (RRep 0 (RClass p)) (MState pv rest len caps) k
  = star_class p k pv rest len caps.
Proof.
  revert pv len. induction rest as [|c rest IH]; intros pv len.
  - reflexivity.
  - rewrite rmatch_star_unfold, IH. reflexivity.
Qed.

Lemma rmatch_rep_S_class n p st k :
  rmatch (RRep (S n) (RClass p)) st k
  = step_char p st (fun st' => rmatch (RRep n (RClass p)) st' k).
Proof. reflexivity. Qed.

Lemma rmatch_seq r1 r2 st k :
  rmatch (RSeq r1 r2) st k = rmatch r1 st (fun st' => rmatch r2 st' k).
Proof. reflexivity. Qed.

Lemma rmatch_char c st k : rmatch (RChar c) st k = step_char (N.eqb c) st k.
Proof. reflexivity. Qed.

Lemma rmatch_class p st k : rmatch (RClass p) st k = step_char p st k.
Proof. reflexivity. Qed.

Lemma rmatch_group r st k :
  rmatch (RGroup r) st k = rmatch r st (fun st' => k (close_group st st')).
Proof. reflexivity. Qed.

Lemma rmatch_wordb st k :
  rmatch RWordB st k = if at_boundary st then k st else None.
Proof. reflexivity. Qed.

Lemma match_here_outcome r prev s :
  match_here r prev s = outcome_of (rmatch r (MState prev s 0 []) Some).
Proof. reflexivity. Qed.

Lemma star_class_accept p pv s len caps :
  outcome_of (star_class p Some pv s len caps)
  = Some ((len + span_len p s)%nat, caps).
Proof.
  revert pv len. induction s as [|c s IH]; intros pv len; simpl.
  - do 2 f_equal. lia.
  - destruct (p c).
    + specialize (IH (Some c) (S len)).
      destruct (star_class p Some (Some c) s (S len) caps); simpl in *.
      * rewrite IH. do 2 f_equal. lia.
      * discriminate.
    + simpl. do 2 f_equal. lia.
Qed.

(** [/\s+/] and [/\s{2,}/] *)
Lemma match_spaces prev s : match_here re_spaces prev s = spaces_match s.
Proof.
  rewrite match_here_outcome. unfold re_spaces, rs, spaces_match.
  rewrite rmatch_rep_S_class. unfold step_char. simpl ms_rest.
  destruct s as [|a s']; [reflexivity|].
  destruct (is_space a); [|reflexivity].
  rewrite rmatch_star_class. apply star_class_accept.
Qed.

Lemma match_spaces2 prev s : match_here re_spaces2 prev s = spaces2_match s.
Proof.
  rewrite match_here_outcome. unfold re_spaces2, rs, spaces2_match.
  rewrite rmatch_rep_S_class. unfold step_char at 1. simpl ms_rest.
  destruct s as [|a s']; [reflexivity|].
  destruct (is_space a); simpl andb.
  2: { destruct s'; reflexivity. }
  rewrite rmatch_rep_S_class. unfold step_char. simpl ms_rest.
  destruct s' as [|b s']; [reflexivity|].
  destruct (is_space b); [|reflexivity].
  rewrite rmatch_star_class. apply star_class_accept.
Qed.

Lemma star_then_LF (k : mstate -> option mstate) pv s len caps :
  (forall st, k st <> None) ->
  star_class is_space (fun st => step_char (N.eqb LF) st k) pv s len caps
  = match upto_last_LF s with
    | Some n => k (MState (Some LF) (drop n s) (len + n)%nat caps)
    | None => None
    end.
Proof.
  intros Hk. revert pv len.
  induction s as [|c s IH]; intros pv len;
    cbn [star_class upto_last_LF]; [reflexivity|].
  destruct (is_space c) eqn:Ec.
  - rewrite IH. destruct (upto_last_LF s) as [n|].
    + replace (len + S n)%nat with (S len + n)%nat by lia.
      destruct (k _) eqn:E; [reflexivity|]. exfalso. eapply Hk, E.
    + unfold step_char. cbn [ms_rest ms_len ms_caps].
      destruct (LF =? c) eqn:El; [|reflexivity].
      apply N.eqb_eq in El. subst c.
      replace (len + 1)%nat with (S len) by lia. reflexivity.
  - unfold step_char. cbn [ms_rest]. destruct (LF =? c) eqn:El; [|reflexivity].
    apply eqb_LF_space in El. congruence.
Qed.

Lemma match_blank prev s : match_here re_blank prev s = blank_match s.
Proof.
  rewrite match_here_outcome. unfold re_blank, rs, blank_match.
  rewrite rmatch_seq, rmatch_char. unfold step_char at 1. simpl ms_rest.
  destruct s as [|c s']; [reflexivity|].
  destruct (LF =? c); [|reflexivity].
  cbn [ms_len ms_caps].
  rewrite rmatch_seq, rmatch_star_class.
  rewrite (star_then_LF Some) by discriminate.
  destruct (upto_last_LF s'); reflexivity.
Qed.

Lemma star_class_never_fails p pv s len caps :
  star_class p Some pv s len caps <> None.
Proof.
  intros E. pose proof (star_class_accept p pv s len caps) as H.
  rewrite E in H. discriminate.
Qed.

Lemma match_hyphen_eol prev s :
  match_here re_hyphen_eol prev s = hyphen_eol_match s.
Proof.
  rewrite match_here_outcome. unfold re_hyphen_eol, rs, hyphen_eol_match.
  rewrite rmatch_seq, rmatch_char. unfold step_char at 1. simpl ms_rest.
  destruct s as [|c s']; [reflexivity|].
  destruct (HYPHEN =? c); [|reflexivity].
  cbn [ms_len ms_caps].
  rewrite rmatch_seq, rmatch_star_class.
  rewrite (star_then_LF (fun st => rmatch (RRep 0 (RClass is_space)) st Some)).
  - destruct (upto_last_LF s') as [n|]; [|reflexivity].
    rewrite rmatch_star_class, star_class_accept. reflexivity.
  - intros [pv rest len caps].
    rewrite rmatch_star_class. apply star_class_never_fails.
Qed.

Lemma star_then_word_group pv s len caps :
  outcome_of
    (star_class is_space (fun st => rmatch (RGroup rw) st Some) pv s len caps)
  = match word_after_spaces s with
    | Some (n, b) => Some (S (len + n), caps ++ [[b]])
    | None => None
    end.
Proof.
  revert pv len. induction s as [|c s IH]; intros pv len;
    cbn [star_class word_after_spaces]; [reflexivity|].
  assert (Hk : forall pv',
    outcome_of (rmatch (RGroup rw) (MState pv' (c :: s) len caps) Some)
    = if is_word c then Some (S len, caps ++ [[c]]) else None).
  { intros pv'. rewrite rmatch_group. unfold rw. rewrite rmatch_class.
    unfold step_char. cbn [ms_rest]. destruct (is_word c); [|reflexivity].
    unfold close_group. cbn [outcome_of ms_len ms_caps ms_rest].
    replace (S len - len)%nat with 1%nat by lia. reflexivity. }
  destruct (is_space c) eqn:Ec.
  - specialize (IH (Some c) (S len)).
    destruct (star_class _ _ _ s _ _) as [st|].
    + rewrite IH. destruct (word_after_spaces s) as [[n b]|]; [|reflexivity].
      do 2 f_equal. lia.
    + rewrite Hk, (space_not_word c Ec).
      destruct (word_after_spaces s) as [[n b]|]; [discriminate|reflexivity].
  - rewrite Hk. destruct (is_word c); [|reflexivity].
    do 2 f_equal. lia.
Qed.

Lemma match_hyphen_mid prev s :
  match_here re_hyphen_mid prev s = hyphen_mid_match s.
Proof.
  rewrite match_here_outcome. unfold re_hyphen_mid, hyphen_mid_match.
  rewrite rmatch_seq, rmatch_group. unfold rw at 1. rewrite rmatch_class.
  unfold step_char at 1. cbn [ms_rest].
  destruct s as [|a s]; [reflexivity|].
  destruct (is_word a); cbn [andb].
  2: { destruct s as [|? [|? ?]]; reflexivity. }
  rewrite rmatch_seq, rmatch_char. unfold step_char at 1.
  unfold close_group at 1. cbn [ms_rest ms_len ms_caps].
  destruct s as [|h s]; [reflexivity|].
  destruct (HYPHEN =? h); cbn [andb].
  2: { destruct s; reflexivity. }
  rewrite rmatch_seq. unfold rs. rewrite rmatch_rep_S_class.
  unfold step_char at 1. cbn [ms_rest ms_len ms_caps].
  destruct s as [|c s]; [reflexivity|].
  destruct (is_space c); [|reflexivity].
  rewrite rmatch_star_class.
  change (fun st' => rmatch (RGroup rw) st' Some)
    with (fun st => rmatch (RGroup rw) st Some).
  rewrite star_then_word_group.
  destruct (word_after_spaces s) as [[n b]|]; [|reflexivity].
  cbn. do 2 f_equal. lia.
Qed.

(** ** Global replacement with an expression that ignores what precedes *)

Section ReplaceFacts.

Variable r : regex.
Variable f : jsstring -> list jsstring -> jsstring.
Variable M : jsstring -> option (nat * list jsstring).

Hypothesis match_here_M : forall prev s, match_here r prev s = M s.
Hypothesis M_nil : M [] = None.
Hypothesis M_bound :
  forall s len caps, M s = Some (len, caps) -> (len <= length s)%nat.

Lemma replace_go_unfold prev c s :
  replace_go r f 0 prev (c :: s)
  = match M (c :: s) with
    | Some (O, caps) => f [] caps ++ c :: replace_go r f 0 (Some c) s
    | Some (S n, caps) =>
        f (take (S n) (c :: s)) caps ++ replace_go r f n (Some c) s
    | None => c :: replace_go r f 0 (Some c) s
    end.
Proof.
  cbn [replace_go]. rewrite match_here_M.
  destruct (M (c :: s)) as [[[|n] caps]|]; reflexivity.
Qed.

Lemma replace_go_nil skip prev : replace_go r f skip prev [] = [].
Proof.
  destruct skip; [|reflexivity]. cbn [replace_go].
  rewrite match_here_M, M_nil. reflexivity.
Qed.

Lemma replace_go_prev skip p1 p2 s :
  replace_go r f skip p1 s = replace_go r f skip p2 s.
Proof.
  destruct s as [|c s].
  - rewrite !replace_go_nil. reflexivity.
  - destruct skip; [|reflexivity]. rewrite !replace_go_unfold. reflexivity.
Qed.

(** A text in which the expression matches nowhere is left as it is. *)
Lemma replace_go_no_match prev s :
  (forall t1 t2, s = t1 ++ t2 -> M t2 = None) ->
  replace_go r f 0 prev s = s.
Proof.
  revert prev. induction s as [|c s IH]; intros prev H.
  - apply replace_go_nil.
  - rewrite replace_go_unfold, (H [] (c :: s) eq_refl). f_equal.
    apply IH. intros t1 t2 ->. apply (H (c :: t1) t2). reflexivity.
Qed.

(** Matches that start inside [p] and are the same with or without
    what follows [p]: the replacement works on [p] and on the rest one
    after the other. *)
Lemma replace_go_app p q skip prev :
  (forall t1 c t2, p = t1 ++ c :: t2 -> M (c :: t2 ++ q) = M (c :: t2)) ->
  (skip <= length p)%nat ->
  replace_go r f skip prev (p ++ q)
  = replace_go r f skip prev p ++ replace_go r f 0 None q.
Proof.
  revert skip prev. induction p as [|c p IH]; intros skip prev H Hs.
  - simpl in Hs. assert (skip = O) by lia. subst skip.
    rewrite replace_go_nil. simpl. apply replace_go_prev.
  - assert (H' : forall t1 d t2, p = t1 ++ d :: t2 ->
                 M (d :: t2 ++ q) = M (d :: t2)).
    { intros t1 d t2 ->. apply (H (c :: t1) d t2). reflexivity. }
    destruct skip as [|n].
    + cbn [app]. rewrite !replace_go_unfold.
      rewrite (H [] c p eq_refl).
      destruct (M (c :: p)) as [[[|n] caps]|] eqn:E.
      * rewrite (IH 0%nat (Some c) H') by lia. rewrite <- app_assoc.
        reflexivity.
      * apply M_bound in E. simpl in E.
        rewrite (IH n (Some c) H') by lia.
        rewrite app_assoc. do 2 f_equal.
        change (c :: p ++ q) with ((c :: p) ++ q).
        rewrite take_app_le by (simpl; lia). reflexivity.
      * rewrite (IH 0%nat (Some c) H') by lia. reflexivity.
    + cbn [app replace_go]. simpl in Hs. apply IH; [exact H'|lia].
Qed.

(** Passing over the rest of a match. *)
Lemma replace_go_skip u v prev :
  replace_go r f (length u) prev (u ++ v) = replace_go r f 0 None v.
Proof.
  revert prev. induction u as [|c u IH]; intros prev; cbn [length app].
  - apply replace_go_prev.
  - cbn [replace_go]. apply IH.
Qed.

End ReplaceFacts.

(** ** Consecutive duplicates *)

Lemma push_unless_last_twice d x :
  push_unless_last (push_unless_last d x) x = push_unless_last d x.
Proof.
  unfold push_unless_last at 2 3. destruct (last d) as [l|] eqn:E.
  - case_bool_decide as Hl.
    + unfold push_unless_last. rewrite E, bool_decide_eq_true_2; done.
    + unfold push_unless_last. rewrite last_snoc, bool_decide_eq_true_2; done.
  - unfold push_unless_last. rewrite last_snoc, bool_decide_eq_true_2; done.
Qed.

Lemma dedupedLines_collapse l x r :
  dedupedLines (l ++ x :: x :: r) = dedupedLines (l ++ x :: r).
Proof.
  unfold dedupedLines. rewrite !fold_left_app. cbn [fold_left].
  rewrite push_unless_last_twice. reflexivity.
Qed.

(** ** Worked inputs *)

(** C8: immediately consecutive duplicates among the trimmed lines are
    collapsed into one occurrence, whatever their total frequency; the
    lines Title, Title, Body give Title, Body, although Title occurs only
    twice. *)
Theorem consecutive_duplicates_collapsed :
  (forall l x r, dedupedLines (l ++ x :: x :: r) = dedupedLines (l ++ x :: r))
  /\ frequencyOf (originalLines (text_of [js "Title"; js "Title"; js "Body"]))
       !! js "Title" = Some (FNum 2)
  /\ filteredLines (text_of [js "Title"; js "Title"; js "Body"])
     = [js "Title"; js "Body"]
  /\ removeRepeatedLines (text_of [js "Title"; js "Title"; js "Body"])
     = text_of [js "Title"; js "Body"].
Proof.
  split; [exact dedupedLines_collapse|].
  repeat split; vm_compute; reflexivity.
Qed.

(** C9: a document of zero pages yields the empty string, and nothing is
    thrown. *)
Theorem zero_pages_give_empty_text :
  fullTextOf [] = [] /\ cleanText [] = []
  /\ extractTextFromPDF (Some []) = Returned [].
Proof. repeat split; vm_compute; reflexivity. Qed.

(** The example of the letter-run step, through that step and through
    the whole pipeline. *)
Lemma letter_run_example :
  paso2 (js "H I S T O R I A S de ejemplo") = js "HISTORIAS de ejemplo"
  /\ normalize (js "H I S T O R I A S de ejemplo") = js "HISTORIAS de ejemplo"
  /\ split_on SP (normalize (js "H I S T O R I A S de ejemplo"))
     = [js "HISTORIAS"; js "de"; js "ejemplo"].
Proof. repeat split; vm_compute; reflexivity. Qed.

(** C5: the letter-run step does not always fuse a whole run, nor leave
    the neighbouring words as they are.  [\b] takes the accented letters
    of the class, like every character that is no word character, for the
    other side of a boundary: of the run H O L Á only H O L is fused,
    though Á is a letter of the class; in a b éxito the first letter of
    the next word is drawn into the run; in it's a b the letter after the
    apostrophe of the word before is.  The same happens through the whole
    pipeline.  The example of the claim comes out as it says. *)
Theorem letter_run_takes_from_neighbours :
  is_letter A_acute = true
  /\ paso2 (js "H O L " ++ [A_acute]) = js "HOL " ++ [A_acute]
  /\ normalize (js "H O L " ++ [A_acute]) = js "HOL " ++ [A_acute]
  /\ paso2 (js "a b " ++ e_acute :: js "xito") = js "ab" ++ e_acute :: js "xito"
  /\ normalize (js "a b " ++ e_acute :: js "xito")
     = js "ab" ++ e_acute :: js "xito"
  /\ paso2 (js "it's a b") = js "it'sab"
  /\ normalize (js "it's a b") = js "it'sab"
  /\ paso2 (js "H I S T O R I A S de ejemplo") = js "HISTORIAS de ejemplo".
Proof. repeat split; vm_compute; reflexivity. Qed.

(** C3: the end-of-line rule joins verifica- / ción and well-known is left
    alone, but the same-line form verifica - ción, the example of the
    source comment, is not joined: the expression wants the word
    character right before the hyphen. *)
Theorem same_line_example_not_joined :
  paso4 (js "verifica-" ++ LF :: cion) = verificacion
  /\ paso4 (js "well-known") = js "well-known"
  /\ paso4 (js "verifica - " ++ cion) = js "verifica - " ++ cion
  /\ normalize (js "verifica - " ++ cion) = js "verifica - " ++ cion
  /\ paso4 (js "verifica- " ++ cion) = verificacion.
Proof. repeat split; vm_compute; reflexivity. Qed.

(** C6: the class of the letter-run expression holds Ñ but not ñ, so a
    run through a lowercase ñ is not fused, while the same run through Ñ
    is. *)
Theorem lowercase_n_tilde_not_joined :
  is_letter n_tilde = false
  /\ is_letter N_tilde = true
  /\ paso2 (js "a " ++ n_tilde :: js " b") = js "a " ++ n_tilde :: js " b"
  /\ normalize (js "a " ++ n_tilde :: js " b") = js "a " ++ n_tilde :: js " b"
  /\ paso2 (js "a " ++ N_tilde :: js " b") = js "a" ++ N_tilde :: js "b".
Proof. repeat split; vm_compute; reflexivity. Qed.

(** Beside C6: the accented letters of the class are no word characters,
    so [\b] finds no boundary between one of them and white space or an
    end of the text; a run that starts or ends with one is not fused. *)
Lemma accented_letter_at_run_end :
  paso2 [a_acute; SP; e_acute] = [a_acute; SP; e_acute]
  /\ paso2 (js "a " ++ [a_acute]) = js "a " ++ [a_acute]
  /\ paso2 (js "a " ++ a_acute :: js " b") = js "a" ++ a_acute :: js "b".
Proof. repeat split; vm_compute; reflexivity. Qed.

(** C2: a short line that is the name of a property of [Object.prototype]
    is kept however often it occurs: three occurrences of toString stay,
    in the filter and through the whole pipeline, while three occurrences
    of footer go. *)
Theorem inherited_name_never_filtered :
  let text := text_of [js "toString"; js "xx"; js "toString"; js "yy";
                       js "toString"] in
  occurrences (js "toString") (originalLines text) = 3%nat
  /\ (length (js "toString") < 80)%nat
  /\ obj_get (frequencyOf (originalLines text)) (js "toString") = Some FOther
  /\ removeRepeatedLines text = text
  /\ normalize text = text
  /\ removeRepeatedLines
       (text_of [js "footer"; js "xx"; js "footer"; js "yy"; js "footer"])
     = text_of [js "xx"; js "yy"].
Proof. repeat split; vm_compute; reflexivity || lia. Qed.


(** Against C4: the end-of-line rule removes a hyphen that has a space, or
    nothing, before it, and one that has nothing after the break. *)
Lemma eol_rule_without_word_before :
  hyphen_eol (js "a -" ++ LF :: js "b") = js "a b"
  /\ hyphen_eol (js "-" ++ LF :: js "b") = js "b"
  /\ hyphen_eol (js "a-" ++ [LF]) = js "a".
Proof. repeat split; vm_compute; reflexivity. Qed.

(** Against C7: a cleaned text that a second pass changes again. *)
Lemma second_pass_changes_cleaned_text :
  let y := text_of [js "ab"; js "qq"; js "ab"; js "qq"; js "a"; js "zz";
                    js "b"; js "zz"; js "zz"] in
  let x := text_of [js "ab"; js "qq"; js "ab"; js "qq"; js "a"; js "b"] in
  normalize y = x
  /\ normalize x = text_of [js "qq"; js "qq"]
  /\ normalize (normalize x) = js "qq"
  /\ normalize (normalize x) <> normalize x.
Proof. repeat split; try (vm_compute; reflexivity). vm_compute. discriminate. Qed.

(** ** [trim] *)

Lemma trim_start_snoc u c :
  trim_start (u ++ [c])
  = match trim_start u with
    | [] => if is_space c then [] else [c]
    | v => v ++ [c]
    end.
Proof.
  induction u as [|a u IH]; cbn [app trim_start].
  - reflexivity.
  - destruct (is_space a); [exact IH|reflexivity].
Qed.

Lemma trim_end_cons c t :
  trim_end (c :: t)
  = match trim_end t with
    | [] => if is_space c then [] else [c]
    | v => c :: v
    end.
Proof.
  unfold trim_end. rewrite reverse_cons, trim_start_snoc.
  destruct (trim_start (reverse t)) as [|a v] eqn:E.
  - rewrite reverse_nil. destruct (is_space c); reflexivity.
  - rewrite reverse_snoc.
    destruct (reverse (a :: v)) eqn:E'; [|reflexivity].
    apply (f_equal reverse) in E'. rewrite reverse_involutive in E'.
    discriminate.
Qed.

Lemma trim_end_nil : trim_end [] = [].
Proof. reflexivity. Qed.

Lemma trim_start_head s : opt_space (head (trim_start s)) = false.
Proof.
  induction s as [|c s IH]; cbn [trim_start]; [reflexivity|].
  destruct (is_space c) eqn:E; [exact IH|]. exact E.
Qed.

Lemma trim_start_fixed s : opt_space (head s) = false -> trim_start s = s.
Proof. destruct s as [|c s]; cbn; [reflexivity|]. intros ->. reflexivity. Qed.

Lemma trim_end_last s : opt_space (last (trim_end s)) = false.
Proof.
  unfold trim_end. rewrite last_reverse. apply trim_start_head.
Qed.

Lemma trim_end_fixed s : opt_space (last s) = false -> trim_end s = s.
Proof.
  intros H. unfold trim_end. rewrite trim_start_fixed.
  - apply reverse_involutive.
  - rewrite head_reverse. exact H.
Qed.

Lemma trim_end_head s :
  opt_space (head s) = false -> opt_space (head (trim_end s)) = false.
Proof.
  destruct s as [|c s]; [reflexivity|]. cbn [head opt_space]. intros Hc.
  rewrite trim_end_cons, Hc. destruct (trim_end s); exact Hc.
Qed.

Lemma trim_edge_free s : edge_free (trim s).
Proof.
  split.
  - apply trim_end_head, trim_start_head.
  - apply trim_end_last.
Qed.

Lemma trim_fixed s : edge_free s -> trim s = s.
Proof.
  intros [Hh Hl]. unfold trim. rewrite (trim_start_fixed s Hh).
  apply trim_end_fixed, Hl.
Qed.

Lemma trim_idempotent s : trim (trim s) = trim s.
Proof. apply trim_fixed, trim_edge_free. Qed.

Lemma trim_start_elem x s : x ∈ trim_start s -> x ∈ s.
Proof.
  induction s as [|c s IH]; cbn [trim_start]; [done|].
  destruct (is_space c); [|done]. intros H. right. auto.
Qed.

Lemma trim_elem x s : x ∈ trim s -> x ∈ s.
Proof.
  unfold trim, trim_end. rewrite elem_of_reverse. intros H.
  apply trim_start_elem in H. rewrite elem_of_reverse in H.
  apply trim_start_elem, H.
Qed.

(** ** [split] and [join] *)

Lemma split_on_cons_inv sep s : exists l ls, split_on sep s = l :: ls.
Proof.
  induction s as [|c s (l & ls & IH)]; cbn [split_on]; [eauto|].
  destruct (c =? sep); [eauto|]. rewrite IH. eauto.
Qed.

Lemma split_on_no_sep sep s : Forall (fun l => sep ∉ l) (split_on sep s).
Proof.
  induction s as [|c s IH]; cbn [split_on].
  - repeat constructor. apply not_elem_of_nil.
  - destruct (c =? sep) eqn:E.
    + constructor; [apply not_elem_of_nil|exact IH].
    + destruct (split_on_cons_inv sep s) as (l & ls & El). rewrite El in *.
      inversion IH; subst. constructor; [|assumption].
      apply not_elem_of_cons. split; [|assumption].
      intros ->. apply N.eqb_neq in E. congruence.
Qed.

Lemma split_on_app_sep sep l rest :
  sep ∉ l -> split_on sep (l ++ sep :: rest) = l :: split_on sep rest.
Proof.
  induction l as [|c l IH]; intros H; cbn [app split_on].
  - rewrite N.eqb_refl. reflexivity.
  - apply not_elem_of_cons in H as [Hc Hl].
    rewrite (proj2 (N.eqb_neq c sep)) by congruence.
    rewrite (IH Hl). reflexivity.
Qed.

Lemma split_on_single sep l : sep ∉ l -> split_on sep l = [l].
Proof.
  induction l as [|c l IH]; intros H; cbn [split_on]; [reflexivity|].
  apply not_elem_of_cons in H as [Hc Hl].
  rewrite (proj2 (N.eqb_neq c sep)) by congruence.
  rewrite (IH Hl). reflexivity.
Qed.

Lemma join_cons_cons sep l l' ls :
  join sep (l :: l' :: ls) = l ++ sep ++ join sep (l' :: ls).
Proof. reflexivity. Qed.

Lemma split_join sep ls :
  ls <> [] -> Forall (fun l => sep ∉ l) ls ->
  split_on sep (join [sep] ls) = ls.
Proof.
  induction ls as [|l ls IH]; intros Hne H; [done|].
  inversion H as [|? ? Hl Hls]; subst.
  destruct ls as [|l' ls].
  - apply split_on_single, Hl.
  - rewrite join_cons_cons. cbn [app].
    rewrite split_on_app_sep by exact Hl. f_equal. apply IH; done.
Qed.

Lemma join_nonempty sep l ls : l <> [] -> join sep (l :: ls) <> [].
Proof.
  intros Hl. destruct ls; [exact Hl|]. rewrite join_cons_cons.
  destruct l; [done|discriminate].
Qed.

Lemma join_head sep l ls : l <> [] -> head (join sep (l :: ls)) = head l.
Proof.
  intros Hl. destruct ls; [reflexivity|]. rewrite join_cons_cons.
  destruct l; [done|reflexivity].
Qed.

Lemma last_app_nonempty (a b : jsstring) : b <> [] -> last (a ++ b) = last b.
Proof.
  intros Hb. destruct (last b) as [x|] eqn:E.
  - apply last_Some in E as [b' ->]. rewrite app_assoc. apply last_snoc.
  - apply last_None in E. done.
Qed.

Lemma join_last sep ls :
  Forall (fun l => l <> []) ls ->
  last (join sep ls) = mbind last (last ls).
Proof.
  induction ls as [|l ls IH]; intros H; [reflexivity|].
  inversion H as [|? ? Hl Hls]; subst.
  destruct ls as [|l' ls]; [reflexivity|].
  specialize (IH Hls).
  assert (Hj : join sep (l' :: ls) <> []).
  { inversion Hls; subst. apply join_nonempty. assumption. }
  rewrite join_cons_cons, last_cons_cons, <- IH, app_assoc.
  apply last_app_nonempty, Hj.
Qed.

Lemma join_edge_free sep ls :
  Forall (fun l => l <> [] /\ edge_free l) ls -> edge_free (join sep ls).
Proof.
  intros H. split.
  - destruct ls as [|l ls]; [reflexivity|].
    inversion H as [|? ? [Hl [Hh _]] _]; subst.
    rewrite join_head by exact Hl. exact Hh.
  - rewrite join_last by (eapply Forall_impl; [exact H|]; intros ? [? _]; assumption).
    destruct (last ls) as [l|] eqn:E; [|reflexivity]. cbn.
    apply last_Some_elem_of in E.
    rewrite Forall_forall in H. apply H in E as [_ [_ Hl]]. exact Hl.
Qed.

(** ** The lines kept by [removeRepeatedLines] *)

Lemma originalLines_clean text : Forall clean_line (originalLines text).
Proof.
  unfold originalLines. apply Forall_forall. intros l Hl.
  apply list_elem_of_filter in Hl as [Hne Hin].
  apply list_elem_of_fmap in Hin as (raw & -> & Hraw).
  repeat split.
  - intros E. rewrite E in Hne. discriminate.
  - apply trim_idempotent.
  - intros H. apply trim_elem in H.
    pose proof (split_on_no_sep LF text) as F.
    rewrite Forall_forall in F. exact (F raw Hraw H).
Qed.

Lemma push_unless_last_elem d line x :
  x ∈ push_unless_last d line -> x ∈ d \/ x = line.
Proof.
  unfold push_unless_last. destruct (last d); [case_bool_decide|];
    rewrite ?elem_of_app, ?list_elem_of_singleton; tauto.
Qed.

Lemma fold_push_elem lines d x :
  x ∈ fold_left push_unless_last lines d -> x ∈ d \/ x ∈ lines.
Proof.
  revert d. induction lines as [|l lines IH]; intros d; cbn [fold_left].
  - auto.
  - intros H. apply IH in H as [H|H].
    + apply push_unless_last_elem in H as [H| ->]; [auto|].
      right. left.
    + right. right. exact H.
Qed.

Lemma dedupedLines_elem lines x : x ∈ dedupedLines lines -> x ∈ lines.
Proof.
  intros H. apply fold_push_elem in H as [H|H]; [|exact H].
  inversion H.
Qed.

Lemma filteredLines_elem text x :
  x ∈ filteredLines text -> x ∈ originalLines text.
Proof.
  unfold filteredLines. intros H.
  apply list_elem_of_filter in H as [_ H]. apply dedupedLines_elem, H.
Qed.

Lemma filteredLines_clean text : Forall clean_line (filteredLines text).
Proof.
  apply Forall_forall. intros l Hl. apply filteredLines_elem in Hl.
  pose proof (originalLines_clean text) as F.
  rewrite Forall_forall in F. auto.
Qed.

Lemma clean_line_edge_free l : clean_line l -> l <> [] /\ edge_free l.
Proof.
  intros (Hne & Ht & _). split; [exact Hne|]. rewrite <- Ht.
  apply trim_edge_free.
Qed.

Lemma textLines_join ls :
  Forall clean_line ls -> textLines (join [LF] ls) = ls.
Proof.
  intros H. destruct ls as [|l ls]; [reflexivity|].
  assert (Hl : l <> []) by (inversion H as [|? ? [? _] _]; assumption).
  unfold textLines. pose proof (join_nonempty [LF] l ls Hl) as Hj.
  destruct (join [LF] (l :: ls)) eqn:E; [done|]. rewrite <- E.
  apply split_join; [done|].
  eapply Forall_impl; [exact H|]. intros ? (_ & _ & ?). assumption.
Qed.

(** C10: the output of [removeRepeatedLines], hence of the whole
    cleaning, has exactly the kept lines as its lines; none of them is
    empty, none has white space at either end, and neither has the output
    as a whole. *)
Theorem output_lines_trimmed_nonempty (text : jsstring) :
  let out := removeRepeatedLines text in
  textLines out = filteredLines text
  /\ Forall (fun l => l <> [] /\ trim l = l /\ edge_free l) (textLines out)
  /\ trim out = out
  /\ edge_free out.
Proof.
  cbn zeta. unfold removeRepeatedLines.
  pose proof (filteredLines_clean text) as F.
  assert (E : edge_free (join [LF] (filteredLines text))).
  { apply join_edge_free. eapply Forall_impl; [exact F|].
    apply clean_line_edge_free. }
  rewrite (textLines_join _ F). repeat split.
  - eapply Forall_impl; [exact F|]. intros l Hl.
    destruct (clean_line_edge_free l Hl) as [? ?].
    destruct Hl as (? & ? & ?). auto.
  - apply trim_fixed, E.
  - apply E.
  - apply E.
Qed.

(** ** The frequency table *)

Lemma inherited_proto_name : inherited proto_name = true.
Proof. vm_compute. reflexivity. Qed.

Lemma count_line_other m l line :
  l <> line -> count_line m l !! line = m !! line.
Proof.
  intros H. unfold count_line, obj_set. case_bool_decide; [reflexivity|].
  apply lookup_insert_ne. exact H.
Qed.

Lemma count_line_own m line c :
  inherited line = false -> m !! line = stored_count c ->
  count_line m line !! line = stored_count (S c).
Proof.
  intros Hi Hm. unfold count_line, obj_set, obj_get. rewrite Hm, Hi.
  case_bool_decide as Hp.
  { rewrite Hp, inherited_proto_name in Hi. discriminate. }
  rewrite lookup_insert_eq. destruct c as [|c]; cbn [stored_count].
  - reflexivity.
  - cbn [or_zero_plus_one].
    destruct (N.of_nat (S c) =? 0) eqn:E; [apply N.eqb_eq in E; lia|].
    do 2 f_equal. lia.
Qed.

Lemma occurrences_cons line l lines :
  occurrences line (l :: lines)
  = ((if decide (l = line) then 1 else 0) + occurrences line lines)%nat.
Proof.
  unfold occurrences. rewrite filter_cons. destruct (decide (l = line));
    reflexivity.
Qed.

Lemma fold_count_own lines line :
  inherited line = false ->
  forall m c, m !! line = stored_count c ->
  fold_left count_line lines m !! line
  = stored_count (c + occurrences line lines).
Proof.
  intros Hi. induction lines as [|l lines IH]; intros m c Hm.
  - cbn. rewrite Nat.add_0_r. exact Hm.
  - cbn [fold_left]. rewrite occurrences_cons.
    destruct (decide (l = line)) as [->|Hne].
    + rewrite (IH _ (S c)) by (apply count_line_own; assumption).
      f_equal. lia.
    + rewrite (IH _ c) by (rewrite count_line_other; assumption).
      f_equal.
Qed.

Lemma frequencyOf_own lines line :
  inherited line = false ->
  obj_get (frequencyOf lines) line = stored_count (occurrences line lines).
Proof.
  intros Hi. unfold obj_get, frequencyOf.
  rewrite (fold_count_own lines line Hi ∅ 0%nat) by apply lookup_empty.
  rewrite Hi. cbn [Nat.add].
  destruct (stored_count (occurrences line lines)); reflexivity.
Qed.

Lemma fold_count_inherited lines line :
  inherited line = true ->
  forall m, m !! line = None \/ m !! line = Some FOther ->
  obj_get (fold_left count_line lines m) line = Some FOther.
Proof.
  intros Hi. induction lines as [|l lines IH]; intros m Hm.
  - cbn. unfold obj_get. rewrite Hi. destruct Hm as [-> | ->]; reflexivity.
  - cbn [fold_left]. apply IH.
    destruct (decide (l = line)) as [->|Hne].
    + unfold count_line, obj_set, obj_get. rewrite Hi.
      case_bool_decide; [|right].
      * destruct Hm as [-> | ->]; auto.
      * rewrite lookup_insert_eq. destruct Hm as [-> | ->]; reflexivity.
    + rewrite count_line_other by assumption. exact Hm.
Qed.

Lemma frequencyOf_inherited lines line :
  inherited line = true -> obj_get (frequencyOf lines) line = Some FOther.
Proof.
  intros Hi. apply fold_count_inherited; [exact Hi|]. left. apply lookup_empty.
Qed.

(** What the final filter does, for every text and every line: a line of
    the deduplicated sequence is dropped exactly when it is not the name
    of an inherited property, occurs more than twice among the trimmed
    non-empty lines, and is shorter than 80 code units. *)
Lemma filter_rule text line :
  line ∈ filteredLines text <->
  line ∈ dedupedLines (originalLines text)
  /\ ~ (inherited line = false
        /\ (2 < occurrences line (originalLines text))%nat
        /\ (length line < 80)%nat).
Proof.
  unfold filteredLines. rewrite list_elem_of_filter.
  assert (K : keep_line (frequencyOf (originalLines text)) line = true <->
    ~ (inherited line = false
       /\ (2 < occurrences line (originalLines text))%nat
       /\ (length line < 80)%nat)).
  { unfold keep_line. destruct (inherited line) eqn:Hi.
    - rewrite frequencyOf_inherited by exact Hi. cbn. split; [|reflexivity].
      intros _ [? _]. discriminate.
    - rewrite frequencyOf_own by exact Hi.
      set (n := occurrences line (originalLines text)).
      destruct (length line <? 80)%nat eqn:El.
      + apply Nat.ltb_lt in El. rewrite andb_true_r.
        destruct n as [|n]; cbn [stored_count greater_than_two].
        * split; [|reflexivity]. intros _ (_ & ? & _). lia.
        * destruct (2 <? N.of_nat (S n)) eqn:E.
          -- apply N.ltb_lt in E. split; [discriminate|].
             intros H. exfalso. apply H. repeat split; lia.
          -- apply N.ltb_ge in E. split; [|reflexivity].
             intros _ (_ & ? & _). lia.
      + apply Nat.ltb_ge in El. rewrite andb_false_r. split; [|reflexivity].
        intros _ (_ & _ & ?). lia. }
  rewrite K. tauto.
Qed.

(** The final filter, exactly: a line of the deduplicated sequence is
    dropped if and only if it is not the name of a property inherited
    from [Object.prototype], occurs more than twice among the trimmed
    non-empty lines, and is shorter than 80 code units. *)
Theorem final_filter_rule (text line : jsstring) :
  line ∈ filteredLines text <->
  line ∈ dedupedLines (originalLines text)
  /\ ~ (inherited line = false
        /\ (2 < occurrences line (originalLines text))%nat
        /\ (length line < 80)%nat).
Proof. apply filter_rule. Qed.

Lemma filter_rule_for_own_names text line :
  inherited line = false ->
  (line ∈ dedupedLines (originalLines text) /\ line ∉ filteredLines text
   <-> line ∈ dedupedLines (originalLines text)
       /\ (2 < occurrences line (originalLines text))%nat
       /\ (length line < 80)%nat).
Proof.
  intros Hi. rewrite filter_rule. split.
  - intros [Hd Hn]. split; [exact Hd|].
    destruct (decide (2 < occurrences line (originalLines text))%nat);
      destruct (decide (length line < 80)%nat); try tauto;
      exfalso; apply Hn; split; tauto.
  - intros (Hd & H1 & H2). split; [exact Hd|]. tauto.
Qed.

(** ** Replacing runs of white space *)

Lemma span_drop_head p s :
  match head (drop (span_len p s) s) with
  | Some c => p c = false
  | None => True
  end.
Proof.
  induction s as [|c s IH]; cbn [span_len]; [exact I|].
  destruct (p c) eqn:E; [exact IH|]. exact E.
Qed.

Lemma span_take_all p s : Forall (fun c => p c = true) (take (span_len p s) s).
Proof.
  induction s as [|c s IH]; cbn [span_len]; [constructor|].
  destruct (p c) eqn:E; [|constructor]. cbn. constructor; assumption.
Qed.

Lemma upto_last_LF_spaces s n :
  upto_last_LF s = Some n ->
  (0 < n <= length s)%nat /\ Forall (fun c => is_space c = true) (take n s).
Proof.
  revert n. induction s as [|c s IH]; intros n; cbn [upto_last_LF];
    [discriminate|].
  destruct (is_space c) eqn:Ec; [|discriminate].
  destruct (upto_last_LF s) as [m|].
  - intros [= <-]. destruct (IH m eq_refl) as [? ?]. cbn.
    split; [lia|]. constructor; assumption.
  - destruct (LF =? c); [|discriminate]. intros [= <-]. cbn.
    split; [lia|]. rewrite take_0. repeat constructor. exact Ec.
Qed.

Section SpaceReplace.

Variable r : regex.
Variable f : jsstring -> list jsstring -> jsstring.
Variable M : jsstring -> option (nat * list jsstring).

Hypothesis match_here_M : forall prev s, match_here r prev s = M s.
Hypothesis M_nil : M [] = None.
Hypothesis M_bound :
  forall s len caps, M s = Some (len, caps) -> (len <= length s)%nat.
Hypothesis M_spaces :
  forall s len caps, M s = Some (len, caps) ->
  (0 < len)%nat /\ Forall (fun c => is_space c = true) (take len s).

Lemma space_match_head c s : is_space c = false -> M (c :: s) = None.
Proof.
  intros Hc. destruct (M (c :: s)) as [[len caps]|] eqn:E; [|reflexivity].
  apply M_spaces in E as [Hlen Hall]. destruct len; [lia|].
  cbn in Hall. inversion Hall; subst. congruence.
Qed.

Lemma space_replace_head prev s :
  opt_space (head s) = false ->
  head (replace_go r f 0 prev s) = head s.
Proof.
  destruct s as [|c s]; cbn [head opt_space]; intros Hc.
  - rewrite (replace_go_nil r f M match_here_M M_nil). reflexivity.
  - rewrite (replace_go_unfold r f M match_here_M).
    rewrite (space_match_head c s Hc). reflexivity.
Qed.

Lemma space_replace_last s x :
  last s = Some x -> is_space x = false ->
  forall skip prev, (skip < length s)%nat ->
  last (replace_go r f skip prev s) = Some x.
Proof.
  intros Hx Hsp. induction s as [|c s IH]; [discriminate|].
  intros skip prev Hskip. cbn [length] in Hskip.
  destruct skip as [|n].
  - rewrite (replace_go_unfold r f M match_here_M).
    assert (Hrest : forall pv, s <> [] ->
              last (replace_go r f 0 pv s) = Some x).
    { intros pv Hs. apply IH; [|destruct s; [done|cbn; lia]].
      destruct s; [done|]. rewrite last_cons_cons in Hx. exact Hx. }
    assert (Hcopy : last (c :: replace_go r f 0 (Some c) s) = Some x).
    { destruct s as [|b s].
      - rewrite (replace_go_nil r f M match_here_M M_nil). exact Hx.
      - specialize (Hrest (Some c) ltac:(done)).
        destruct (replace_go r f 0 (Some c) (b :: s)); [discriminate|].
        rewrite last_cons_cons. exact Hrest. }
    destruct (M (c :: s)) as [[[|n] caps]|] eqn:E.
    + apply M_spaces in E as [? _]. lia.
    + pose proof (M_bound _ _ _ E) as Hb. cbn [length] in Hb.
      apply M_spaces in E as [_ Hall].
      assert (Hn : (n < length s)%nat).
      { destruct (decide (n = length s)) as [->|]; [|lia]. exfalso.
        rewrite (take_ge (c :: s)) in Hall by (cbn; lia).
        rewrite Forall_forall in Hall.
        apply last_Some_elem_of in Hx. apply Hall in Hx. congruence. }
      assert (Hs : last s = Some x).
      { destruct s; [cbn in Hn; lia|]. rewrite last_cons_cons in Hx.
        exact Hx. }
      rewrite last_app_nonempty; [apply IH; assumption|].
      intros E'. specialize (IH Hs n (Some c) Hn). rewrite E' in IH.
      discriminate.
    + exact Hcopy.
  - cbn [replace_go]. assert (Hs : last s = Some x).
    { destruct s; [cbn in Hskip; lia|]. rewrite last_cons_cons in Hx.
      exact Hx. }
    apply IH; [exact Hs|lia].
Qed.

Lemma space_replace_edge_free s :
  edge_free s -> edge_free (replace_all r f s).
Proof.
  intros [Hh Hl]. unfold replace_all. split.
  - rewrite space_replace_head; assumption.
  - destruct (last s) as [x|] eqn:E.
    + rewrite (space_replace_last s x E Hl); [exact Hl|].
      destruct s; [discriminate|cbn; lia].
    + apply last_None in E. subst.
      rewrite (replace_go_nil r f M match_here_M M_nil). reflexivity.
Qed.

End SpaceReplace.

Lemma span_len_le p s : (span_len p s <= length s)%nat.
Proof.
  induction s as [|c s IH]; cbn [span_len length]; [lia|].
  destruct (p c); lia.
Qed.

Lemma spaces2_match_spaces s len caps :
  spaces2_match s = Some (len, caps) ->
  (0 < len)%nat /\ Forall (fun c => is_space c = true) (take len s).
Proof.
  destruct s as [|a [|b s]]; cbn [spaces2_match]; try discriminate.
  destruct (is_space a) eqn:Ea; [|discriminate].
  destruct (is_space b) eqn:Eb; [|discriminate].
  intros [= <- <-]. split; [lia|]. cbn.
  repeat constructor; try assumption. apply span_take_all.
Qed.

Lemma spaces2_match_bound s len caps :
  spaces2_match s = Some (len, caps) -> (len <= length s)%nat.
Proof.
  destruct s as [|a [|b s]]; cbn [spaces2_match]; try discriminate.
  destruct (is_space a && is_space b); [|discriminate].
  intros [= <- <-]. pose proof (span_len_le is_space s). cbn. lia.
Qed.

Lemma blank_match_spaces s len caps :
  blank_match s = Some (len, caps) ->
  (0 < len)%nat /\ Forall (fun c => is_space c = true) (take len s).
Proof.
  destruct s as [|c s]; cbn [blank_match]; [discriminate|].
  destruct (LF =? c) eqn:Ec; [|discriminate].
  destruct (upto_last_LF s) as [n|] eqn:E; [|discriminate].
  intros [= <- <-]. apply upto_last_LF_spaces in E as [_ Hall].
  split; [lia|]. cbn. constructor; [|exact Hall].
  apply eqb_LF_space, Ec.
Qed.


Lemma single_spaced_suffix t1 t2 :
  single_spaced (t1 ++ t2) = true -> single_spaced t2 = true.
Proof.
  induction t1 as [|a t1 IH]; cbn [app single_spaced]; [auto|].
  intros H. apply andb_prop in H as [_ H]. auto.
Qed.

Lemma single_spaced_no_spaces2 s :
  single_spaced s = true -> spaces2_match s = None.
Proof.
  destruct s as [|a [|b s]]; cbn [spaces2_match]; try reflexivity.
  cbn [single_spaced head opt_space]. intros H.
  apply andb_prop in H as [H _]. apply negb_true_iff in H. rewrite H.
  reflexivity.
Qed.

Lemma single_spaced_no_blank s :
  single_spaced s = true -> blank_match s = None.
Proof.
  destruct s as [|a s]; cbn [blank_match]; [reflexivity|].
  destruct (LF =? a) eqn:Ea; [|reflexivity].
  destruct s as [|b s]; [reflexivity|].
  cbn [single_spaced head opt_space upto_last_LF]. intros H.
  apply andb_prop in H as [H _]. apply negb_true_iff in H.
  rewrite (eqb_LF_space a Ea) in H. cbn in H. rewrite H. reflexivity.
Qed.

Lemma paso3_go_single_spaced s :
  forall skip prev,
  skip = O \/ opt_space (head (drop skip s)) = false ->
  single_spaced (replace_go re_spaces2 (by_const [SP]) skip prev s) = true
  /\ (opt_space (head (replace_go re_spaces2 (by_const [SP]) skip prev s))
      = true -> opt_space (head (drop skip s)) = true).
Proof.
  induction s as [|c s IH]; intros skip prev Hskip.
  - rewrite (replace_go_nil _ _ _ match_spaces2 eq_refl). split; [reflexivity|].
    discriminate.
  - destruct skip as [|n].
    + rewrite (replace_go_unfold _ _ _ match_spaces2). cbn [drop head].
      destruct (spaces2_match (c :: s)) as [[[|k] caps]|] eqn:E.
      * apply spaces2_match_spaces in E as [? _]. lia.
      * destruct s as [|b s]; [discriminate|]. cbn [spaces2_match] in E.
        destruct (is_space c) eqn:Ec; [|discriminate].
        destruct (is_space b) eqn:Eb; [|discriminate].
        injection E as <- <-.
        assert (Hd : opt_space (head (drop (S (span_len is_space s)) (b :: s)))
                     = false).
        { cbn [drop]. pose proof (span_drop_head is_space s) as Hh.
          destruct (head (drop (span_len is_space s) s)); [exact Hh|reflexivity]. }
        destruct (IH (S (span_len is_space s)) (Some c) (or_intror Hd))
          as [IH1 IH2]. clear IH Hskip.
        set (out := replace_go _ _ (S _) _ _) in *.
        unfold by_const. cbn [app single_spaced head opt_space].
        split; [|intros _; exact Ec].
        rewrite IH1, andb_true_r. apply negb_true_iff.
        change (is_space SP) with true. cbn [andb].
        destruct (opt_space (head out)) eqn:Eo; [|reflexivity].
        rewrite (IH2 eq_refl) in Hd. discriminate.
      * destruct (IH O (Some c) (or_introl eq_refl)) as [IH1 IH2].
        clear IH Hskip.
        set (out := replace_go _ _ O _ _) in *.
        cbn [single_spaced head opt_space]. split; [|auto].
        rewrite IH1, andb_true_r. apply negb_true_iff.
        destruct (is_space c) eqn:Ec; [|reflexivity]. cbn [andb].
        destruct (opt_space (head out)) eqn:Eo; [|reflexivity].
        specialize (IH2 eq_refl).
        destruct s as [|b s]; [discriminate|].
        cbn [drop head opt_space] in IH2.
        cbn [spaces2_match] in E. rewrite Ec, IH2 in E. discriminate.
    + cbn [replace_go drop]. apply IH. right.
      destruct Hskip as [?|H]; [discriminate|exact H].
Qed.

Lemma paso3_single_spaced s : single_spaced (paso3 s) = true.
Proof.
  apply (paso3_go_single_spaced s O None). left. reflexivity.
Qed.

Lemma paso3_edge_free s : edge_free s -> edge_free (paso3 s).
Proof.
  apply (space_replace_edge_free _ _ _ match_spaces2 eq_refl
           spaces2_match_bound spaces2_match_spaces).
Qed.

Lemma paso3_fixed s : single_spaced s = true -> paso3 s = s.
Proof.
  intros H. apply (replace_go_no_match _ _ _ match_spaces2 eq_refl).
  intros t1 t2 ->. apply single_spaced_no_spaces2.
  eapply single_spaced_suffix, H.
Qed.

Lemma collapseBlankLines_fixed s :
  single_spaced s = true -> collapseBlankLines s = s.
Proof.
  intros H. apply (replace_go_no_match _ _ _ match_blank eq_refl).
  intros t1 t2 ->. apply single_spaced_no_blank.
  eapply single_spaced_suffix, H.
Qed.

(** C7, as amended: the white-space normaliser, Paso 1 followed by
    Paso 3, is idempotent; its result is left unchanged by each of the two
    steps, hence by the two together. *)
Theorem whitespace_normaliser_idempotent (s : jsstring) :
  let r := paso3 (paso1 s) in
  paso1 r = r /\ paso3 r = r /\ paso3 (paso1 r) = r.
Proof.
  cbn zeta.
  assert (Hs : single_spaced (paso3 (paso1 s)) = true)
    by apply paso3_single_spaced.
  assert (He : edge_free (paso3 (paso1 s))).
  { apply paso3_edge_free. unfold paso1. apply trim_edge_free. }
  assert (H1 : paso1 (paso3 (paso1 s)) = paso3 (paso1 s)).
  { unfold paso1 at 1. rewrite (collapseBlankLines_fixed _ Hs).
    apply trim_fixed, He. }
  assert (H3 : paso3 (paso3 (paso1 s)) = paso3 (paso1 s))
    by apply (paso3_fixed _ Hs).
  repeat split; [exact H1|exact H3|]. rewrite H1. exact H3.
Qed.

(** ** Paso 1 on a run of blank lines *)


Lemma upto_last_LF_head s : opt_space (head s) = false -> upto_last_LF s = None.
Proof.
  destruct s as [|c s]; cbn [head opt_space upto_last_LF]; [reflexivity|].
  intros ->. reflexivity.
Qed.








(** ** The two hyphenation rules *)

Lemma word_after_spaces_bound s n b :
  word_after_spaces s = Some (n, b) -> (n < length s)%nat.
Proof.
  revert n. induction s as [|c s IH]; intros n; cbn [word_after_spaces];
    [discriminate|].
  destruct (is_space c).
  - destruct (word_after_spaces s) as [[m b']|]; [|discriminate].
    intros [= <- <-]. specialize (IH m eq_refl). cbn. lia.
  - destruct (is_word c); [|discriminate]. intros [= <- <-]. cbn. lia.
Qed.

Lemma hyphen_mid_match_bound s len caps :
  hyphen_mid_match s = Some (len, caps) -> (len <= length s)%nat.
Proof.
  destruct s as [|a [|h [|c s]]]; cbn [hyphen_mid_match]; try discriminate.
  destruct (is_word a && (HYPHEN =? h) && is_space c); [|discriminate].
  destruct (word_after_spaces s) as [[n b]|] eqn:E; [|discriminate].
  intros [= <- <-]. apply word_after_spaces_bound in E. cbn. lia.
Qed.

Lemma word_after_spaces_hyphen u v :
  word_after_spaces (u ++ HYPHEN :: v) = word_after_spaces u.
Proof.
  induction u as [|c u IH]; cbn [app word_after_spaces].
  - rewrite hyphen_not_space, hyphen_not_word. reflexivity.
  - rewrite IH. reflexivity.
Qed.

Lemma hyphen_mid_match_local p q t1 c t2 :
  opt_word (last p) = false \/ word_after_gap q = false ->
  p = t1 ++ c :: t2 ->
  hyphen_mid_match (c :: t2 ++ HYPHEN :: q) = hyphen_mid_match (c :: t2).
Proof.
  intros H ->. destruct t2 as [|h [|d t3]]; cbn [app hyphen_mid_match].
  - rewrite N.eqb_refl, andb_true_r. destruct q as [|d q]; [reflexivity|].
    destruct H as [H|H].
    + rewrite last_snoc in H. cbn in H. rewrite H. reflexivity.
    + cbn [word_after_gap] in H. destruct (is_word c); [|reflexivity].
      destruct (is_space d); [|reflexivity]. cbn in H |- *.
      destruct (word_after_spaces q) as [[? ?]|]; [discriminate|reflexivity].
  - rewrite hyphen_not_space, andb_false_r. reflexivity.
  - rewrite word_after_spaces_hyphen. reflexivity.
Qed.

Lemma hyphen_mid_app p q :
  opt_word (last p) = false \/ word_after_gap q = false ->
  hyphen_mid (p ++ HYPHEN :: q) = hyphen_mid p ++ HYPHEN :: hyphen_mid q.
Proof.
  intros H. unfold hyphen_mid, replace_all.
  rewrite (replace_go_app _ _ _ match_hyphen_mid eq_refl hyphen_mid_match_bound);
    [|intros t1 c t2; apply hyphen_mid_match_local, H|lia].
  f_equal. rewrite (replace_go_unfold _ _ _ match_hyphen_mid).
  assert (E : hyphen_mid_match (HYPHEN :: q) = None).
  { destruct q as [|h [|c q]]; reflexivity. }
  rewrite E. f_equal.
  apply (replace_go_prev _ _ _ match_hyphen_mid eq_refl).
Qed.

Lemma span_len_app_stop p u v :
  match head v with Some c => p c = false | None => True end ->
  span_len p (u ++ v) = span_len p u.
Proof.
  intros Hv. induction u as [|c u IH]; cbn [app span_len].
  - destruct v as [|d v]; [reflexivity|]. cbn in Hv |- *. rewrite Hv.
    reflexivity.
  - rewrite IH. reflexivity.
Qed.

Lemma upto_last_LF_app_stop u v :
  opt_space (head v) = false -> upto_last_LF (u ++ v) = upto_last_LF u.
Proof.
  intros Hv. induction u as [|c u IH]; cbn [app upto_last_LF].
  - apply upto_last_LF_head, Hv.
  - rewrite IH. reflexivity.
Qed.

Lemma hyphen_eol_match_bound s len caps :
  hyphen_eol_match s = Some (len, caps) -> (len <= length s)%nat.
Proof.
  destruct s as [|c s]; cbn [hyphen_eol_match]; [discriminate|].
  destruct (HYPHEN =? c); [|discriminate].
  destruct (upto_last_LF s) as [n|] eqn:E; [|discriminate].
  intros [= <- <-]. apply upto_last_LF_spaces in E as [[_ Hn] _].
  pose proof (span_len_le is_space (drop n s)) as Hs.
  rewrite length_drop in Hs. cbn. lia.
Qed.

Lemma hyphen_eol_match_local rest t c :
  hyphen_eol_match (c :: t ++ HYPHEN :: rest) = hyphen_eol_match (c :: t).
Proof.
  cbn [hyphen_eol_match]. destruct (HYPHEN =? c); [|reflexivity].
  rewrite upto_last_LF_app_stop by reflexivity.
  destruct (upto_last_LF t) as [n|] eqn:E; [|reflexivity].
  apply upto_last_LF_spaces in E as [[_ Hn] _].
  rewrite drop_app_le by exact Hn.
  rewrite span_len_app_stop by reflexivity. reflexivity.
Qed.

Lemma upto_last_LF_within_span s n :
  upto_last_LF s = Some n ->
  (n + span_len is_space (drop n s))%nat = span_len is_space s.
Proof.
  revert n. induction s as [|c s IH]; intros n; cbn [upto_last_LF span_len];
    [discriminate|].
  destruct (is_space c) eqn:Ec; [|discriminate].
  destruct (upto_last_LF s) as [m|].
  - intros [= <-]. cbn [drop]. rewrite <- (IH m eq_refl). lia.
  - destruct (LF =? c); [|discriminate]. intros [= <-]. cbn. reflexivity.
Qed.

Lemma trim_start_drop_span s : trim_start s = drop (span_len is_space s) s.
Proof.
  induction s as [|c s IH]; cbn [trim_start span_len]; [reflexivity|].
  destruct (is_space c); [exact IH|reflexivity].
Qed.

Lemma upto_last_LF_after_LF q : exists n, upto_last_LF (LF :: q) = Some n.
Proof.
  cbn [upto_last_LF]. rewrite LF_is_space.
  destruct (upto_last_LF q); eauto.
Qed.

Lemma hyphen_eol_app p q :
  hyphen_eol (p ++ HYPHEN :: LF :: q) = hyphen_eol p ++ hyphen_eol (trim_start q).
Proof.
  unfold hyphen_eol, replace_all.
  rewrite (replace_go_app _ _ _ match_hyphen_eol eq_refl hyphen_eol_match_bound);
    [|intros t1 c t2 _; apply hyphen_eol_match_local|lia].
  f_equal. rewrite (replace_go_unfold _ _ _ match_hyphen_eol).
  cbn [hyphen_eol_match]. rewrite N.eqb_refl.
  destruct (upto_last_LF_after_LF q) as [n E]. rewrite E.
  rewrite (upto_last_LF_within_span _ _ E).
  unfold by_const at 1. cbn [app].
  change (trim_start q) with (trim_start (LF :: q)).
  rewrite trim_start_drop_span.
  set (k := span_len is_space (LF :: q)).
  rewrite <- (take_drop k (LF :: q)) at 1.
  assert (Hk : length (take k (LF :: q)) = k).
  { apply length_take_le, span_len_le. }
  rewrite <- Hk at 1.
  apply (replace_go_skip _ _ _ match_hyphen_eol eq_refl).
Qed.

(** C4, as amended: only the same-line rule asks for a word character on
    each side.  A hyphen with no word character right before it, or with
    no white space followed by a word character after it, stays where it
    is under that rule, and what is before and after it is treated on its
    own.  The end-of-line rule asks for nothing: a hyphen followed by a
    line feed goes, with all the white space after it, whatever is before
    the hyphen or after the break. *)
Theorem hyphen_rules_guards (p q : jsstring) :
  hyphen_eol (p ++ HYPHEN :: LF :: q)
  = hyphen_eol p ++ hyphen_eol (trim_start q)
  /\ (opt_word (last p) = false \/ word_after_gap q = false ->
      hyphen_mid (p ++ HYPHEN :: q)
      = hyphen_mid p ++ HYPHEN :: hyphen_mid q).
Proof. split; [apply hyphen_eol_app|apply hyphen_mid_app]. Qed.

Lemma hyphen_rules_guards_witness :
  hyphen_eol (js "a " ++ HYPHEN :: LF :: js " b")
  = hyphen_eol (js "a ") ++ hyphen_eol (trim_start (js " b"))
  /\ hyphen_mid (js "a " ++ HYPHEN :: js " b")
     = hyphen_mid (js "a ") ++ HYPHEN :: hyphen_mid (js " b").
Proof.
  destruct (hyphen_rules_guards (js "a ") (js " b")) as [H1 H2].
  split; [exact H1|]. apply H2. left. reflexivity.
Defined.

(** ** The letter-run expression *)

Lemma rmatch_rep_0 r st k :
  rmatch (RRep 0 r) st k
  = star_fuel (rmatch r) k (length (ms_rest st)) st.
Proof. reflexivity. Qed.

Lemma rmatch_rep_S n r st k :
  rmatch (RRep (S n) r) st k
  = rmatch r st (fun st' => rmatch (RRep n r) st' k).
Proof. reflexivity. Qed.

Lemma star_fuel_S body k fuel st :
  star_fuel body k (S fuel) st
  = match body st (fun st' =>
            if (ms_len st <? ms_len st')%nat then star_fuel body k fuel st'
            else None) with
    | Some res => Some res
    | None => k st
    end.
Proof. reflexivity. Qed.

Lemma star_fuel_0 body k st : star_fuel body k 0 st = k st.
Proof. reflexivity. Qed.

Lemma space_not_letter c : is_space c = true -> is_letter c = false.
Proof. intros Hs. class_props Hs. class_false. lia. Qed.

Lemma gap_scan_nonspace c s :
  is_space c = false -> gap_scan (c :: s) = letter_pos (c :: s).
Proof.
  intros Hc. cbn [gap_scan]. rewrite Hc. unfold letter_pos.
  destruct s as [|d s]; reflexivity.
Qed.

Lemma letter_pos_space c s : is_space c = true -> letter_pos (c :: s) = None.
Proof.
  intros Hc. unfold letter_pos, final_letter.
  rewrite (space_not_letter c Hc). destruct s; reflexivity.
Qed.

Lemma gap_scan_span s :
  gap_scan s
  = option_map (fun n => (span_len is_space s + n)%nat)
      (letter_pos (drop (span_len is_space s) s)).
Proof.
  induction s as [|c s IH].
  - reflexivity.
  - cbn [span_len]. destruct (is_space c) eqn:Ec.
    + cbn [gap_scan drop]. rewrite Ec, IH.
      destruct (letter_pos (drop (span_len is_space s) s)); reflexivity.
    + clear IH. rewrite (gap_scan_nonspace c s Ec). cbn [drop].
      destruct (letter_pos (c :: s)); reflexivity.
Qed.

Lemma letter_end_outcome pv s len caps :
  outcome_of (rmatch letter_end (MState pv s len caps) Some)
  = option_map (fun n => ((len + n)%nat, caps)) (final_letter s).
Proof.
  unfold letter_end, rl. rewrite rmatch_seq, rmatch_class.
  unfold step_char, final_letter. cbn [ms_rest].
  destruct s as [|c s]; [reflexivity|].
  destruct (is_letter c); [|reflexivity]. cbn [andb].
  rewrite rmatch_wordb. unfold at_boundary. cbn [ms_prev ms_rest opt_word].
  destruct (xorb _ _); [|reflexivity]. cbn. do 2 f_equal. lia.
Qed.

Lemma letter_group_body k pv s len caps :
  rmatch letter_group (MState pv s len caps) k
  = match s with
    | c :: d :: s'' =>
        if is_letter c && is_space d
        then star_class is_space k (Some d) s'' (S (S len)) caps
        else None
    | _ => None
    end.
Proof.
  unfold letter_group, rl, rs. rewrite rmatch_seq, rmatch_class.
  unfold step_char at 1. cbn [ms_rest].
  destruct s as [|c s]; [reflexivity|].
  destruct (is_letter c); cbn [andb].
  2: { destruct s; reflexivity. }
  rewrite rmatch_rep_S_class. unfold step_char. cbn [ms_rest ms_len ms_caps].
  destruct s as [|d s]; [reflexivity|].
  destruct (is_space d); [|reflexivity].
  apply rmatch_star_class.
Qed.

(** When the continuation fails wherever white space is still ahead, the
    greedy star of white space keeps the whole run. *)
Lemma star_class_commit k pv s len caps :
  (forall pv' n, (n < span_len is_space s)%nat ->
     k (MState pv' (drop n s) (len + n)%nat caps) = None) ->
  exists pv',
    star_class is_space k pv s len caps
    = k (MState pv' (drop (span_len is_space s) s)
           (len + span_len is_space s)%nat caps).
Proof.
  revert pv len. induction s as [|c s IH]; intros pv len Hk.
  - exists pv. cbn. rewrite Nat.add_0_r. reflexivity.
  - cbn [star_class span_len]. destruct (is_space c) eqn:Ec.
    + destruct (IH (Some c) (S len)) as [pv' E].
      { intros pv' n Hn. specialize (Hk pv' (S n)).
        cbn [span_len] in Hk. rewrite Ec in Hk.
        replace (S len + n)%nat with (len + S n)%nat by lia.
        apply Hk. lia. }
      exists pv'. rewrite E. cbn [drop].
      replace (len + S (span_len is_space s))%nat
        with (S len + span_len is_space s)%nat by lia.
      destruct (k _) eqn:Ek; [reflexivity|].
      specialize (Hk pv O). cbn [span_len] in Hk. rewrite Ec in Hk.
      rewrite Nat.add_0_r in Hk. apply Hk. lia.
    + exists pv. cbn. rewrite Nat.add_0_r. reflexivity.
Qed.

Lemma outcome_of_None o : outcome_of o = None -> o = None.
Proof. destruct o; [discriminate|reflexivity]. Qed.

Lemma span_drop_space s n :
  (n < span_len is_space s)%nat ->
  exists c t, drop n s = c :: t /\ is_space c = true.
Proof.
  revert n. induction s as [|c s IH]; intros n; cbn [span_len]; [lia|].
  destruct (is_space c) eqn:Ec; [|lia]. intros Hn.
  destruct n as [|n]; [cbn; eauto|]. cbn [drop]. apply IH. lia.
Qed.

Lemma letter_star_outcome fuel :
  forall s pv len caps, (length s <= fuel)%nat ->
  outcome_of (star_fuel (rmatch letter_group)
                (fun st => rmatch letter_end st Some) fuel
                (MState pv s len caps))
  = option_map (fun n => ((len + n)%nat, caps)) (letter_pos s).
Proof.
  induction fuel as [|fuel IH]; intros s pv len caps Hf.
  - destruct s; [|cbn in Hf; lia]. rewrite star_fuel_0.
    rewrite letter_end_outcome. reflexivity.
  - rewrite star_fuel_S, letter_group_body. cbn [ms_len].
    assert (HK : forall inner,
      match inner with Some n => Some n | None => final_letter s end
      = letter_pos s ->
      forall body, outcome_of body
                   = option_map (fun n => ((len + n)%nat, caps)) inner ->
      outcome_of match body with
                 | Some res => Some res
                 | None => rmatch letter_end (MState pv s len caps) Some
                 end
      = option_map (fun n => ((len + n)%nat, caps)) (letter_pos s)).
    { intros inner Hi body Hb. rewrite <- Hi. destruct inner as [n|].
      - destruct body; [exact Hb|discriminate].
      - apply outcome_of_None in Hb. subst body. apply letter_end_outcome. }
    destruct s as [|c [|d s]];
      try (rewrite letter_end_outcome; reflexivity).
    destruct (is_letter c && is_space d) eqn:Ecd.
    2: { rewrite letter_end_outcome. unfold letter_pos. rewrite Ecd.
         reflexivity. }
    apply (HK (option_map (fun n => S (S n)) (gap_scan s))).
    { unfold letter_pos. rewrite Ecd. reflexivity. }
    cbn [length] in Hf.
    edestruct (star_class_commit
      (fun st' => if (len <? ms_len st')%nat
                  then star_fuel (rmatch letter_group)
                         (fun st => rmatch letter_end st Some) fuel st'
                  else None) (Some d) s (S (S len)) caps) as [pv' E].
    { intros pv' n Hn. cbn [ms_len].
      replace (len <? S (S len) + n)%nat with true
        by (symmetry; apply Nat.ltb_lt; lia).
      apply outcome_of_None. rewrite IH by (rewrite length_drop; lia).
      destruct (span_drop_space s n Hn) as (x & t & -> & Hx).
      rewrite (letter_pos_space x t Hx). reflexivity. }
    rewrite E. cbn [ms_len].
    replace (len <? S (S len) + span_len is_space s)%nat with true
      by (symmetry; apply Nat.ltb_lt; lia).
    rewrite IH by (rewrite length_drop; lia).
    rewrite gap_scan_span.
    destruct (letter_pos (drop (span_len is_space s) s)); [|reflexivity].
    cbn. do 2 f_equal. lia.
Qed.

Lemma match_letters prev s :
  match_here re_letters prev s = letters_match prev s.
Proof.
  rewrite match_here_outcome. unfold re_letters, letters_match.
  rewrite rmatch_seq, rmatch_wordb. unfold at_boundary. cbn [ms_prev ms_rest].
  destruct (xorb _ _); [|reflexivity].
  rewrite rmatch_seq.
  change (RSeq rl (RRep 1 rs)) with letter_group.
  change (RSeq rl RWordB) with letter_end.
  rewrite rmatch_rep_S, letter_group_body.
  destruct s as [|c [|d s]]; try reflexivity.
  destruct (is_letter c && is_space d); [|reflexivity].
  edestruct (star_class_commit
    (fun st' => rmatch (RRep 0 letter_group) st'
                  (fun st => rmatch letter_end st Some)) (Some d) s 2%nat [])
    as [pv' E].
  { intros pv' n Hn. apply outcome_of_None.
    rewrite rmatch_rep_0, letter_star_outcome by reflexivity.
    destruct (span_drop_space s n Hn) as (x & t & -> & Hx).
    rewrite (letter_pos_space x t Hx). reflexivity. }
  rewrite E, rmatch_rep_0, letter_star_outcome by reflexivity.
  rewrite gap_scan_span.
  destruct (letter_pos (drop (span_len is_space s) s)); reflexivity.
Qed.

(** ** Runs of single letters between words *)

Lemma ascii_letter_letter c : ascii_letter c = true -> is_letter c = true.
Proof.
  unfold ascii_letter, is_letter. intros H.
  apply orb_true_iff in H. destruct H as [H|H]; rewrite H;
    rewrite ?orb_true_r; reflexivity.
Qed.

Lemma ascii_letter_word c : ascii_letter c = true -> is_word c = true.
Proof.
  unfold ascii_letter, is_word. intros H.
  apply orb_true_iff in H. destruct H as [H|H]; rewrite H;
    rewrite ?orb_true_r; reflexivity.
Qed.

Lemma ascii_letter_not_space c : ascii_letter c = true -> is_space c = false.
Proof. intros H. apply word_not_space, ascii_letter_word, H. Qed.

Lemma spaced_cons_cons l l' ls :
  spaced (l :: l' :: ls) = l :: SP :: spaced (l' :: ls).
Proof. reflexivity. Qed.

Lemma spaced_cons l ls :
  spaced (l :: ls)
  = l :: match ls with [] => [] | _ :: _ => SP :: spaced ls end.
Proof. destruct ls; reflexivity. Qed.

Lemma last_spaced ls : last (spaced ls) = last ls.
Proof.
  induction ls as [|l ls IH]; [reflexivity|].
  destruct ls as [|l' ls]; [reflexivity|].
  rewrite spaced_cons_cons, !last_cons_cons, <- IH.
  rewrite (spaced_cons l' ls), last_cons_cons. reflexivity.
Qed.

Lemma strip_spaces_spaced ls prev :
  forallb ascii_letter ls = true ->
  replace_go re_spaces (by_const []) 0 prev (spaced ls) = ls.
Proof.
  revert prev. induction ls as [|l [|l' ls] IH]; intros prev H.
  - apply (replace_go_nil _ _ _ match_spaces eq_refl).
  - cbn [forallb] in H. apply andb_prop in H as [Hl _].
    cbn [spaced]. rewrite (replace_go_unfold _ _ _ match_spaces).
    cbn [spaces_match]. rewrite (ascii_letter_not_space l Hl).
    rewrite (replace_go_nil _ _ _ match_spaces eq_refl). reflexivity.
  - remember (l' :: ls) as tl eqn:Etl.
    cbn [forallb] in H. apply andb_prop in H as [Hl Htl].
    assert (Hl' : is_space l' = false).
    { subst tl. cbn [forallb] in Htl. apply andb_prop in Htl as [Hl' _].
      apply ascii_letter_not_space, Hl'. }
    assert (Es : spaced (l :: tl) = l :: SP :: spaced tl)
      by (subst tl; reflexivity).
    rewrite Es, (replace_go_unfold _ _ _ match_spaces).
    cbn [spaces_match]. rewrite (ascii_letter_not_space l Hl). f_equal.
    rewrite (replace_go_unfold _ _ _ match_spaces).
    cbn [spaces_match]. change (is_space SP) with true. cbn iota.
    assert (E0 : span_len is_space (spaced tl) = O).
    { subst tl. destruct ls; cbn [spaced span_len]; rewrite Hl'; reflexivity. }
    rewrite E0. unfold by_const at 1. cbn [app]. apply IH, Htl.
Qed.

Lemma letter_pos_spaced ls rest :
  ls <> [] -> forallb ascii_letter ls = true -> run_stops rest ->
  letter_pos (spaced ls ++ rest) = Some (length (spaced ls)).
Proof.
  intros Hne Hls [Hw Hg]. induction ls as [|l [|l' ls] IH]; [done| |].
  - cbn [forallb] in Hls. apply andb_prop in Hls as [Hl _].
    cbn [spaced app length]. unfold letter_pos, final_letter.
    rewrite (ascii_letter_letter l Hl), (ascii_letter_word l Hl), Hw.
    cbn [andb xorb].
    destruct rest as [|d r]; [reflexivity|].
    destruct (is_space d) eqn:Ed; [|reflexivity].
    rewrite (Hg eq_refl). reflexivity.
  - remember (l' :: ls) as tl eqn:Etl.
    cbn [forallb] in Hls. apply andb_prop in Hls as [Hl Htl].
    assert (Es : spaced (l :: tl) = l :: SP :: spaced tl)
      by (subst tl; reflexivity).
    rewrite Es. cbn [app length]. unfold letter_pos.
    rewrite (ascii_letter_letter l Hl). change (is_space SP) with true.
    cbn [andb].
    assert (Eg : gap_scan (spaced tl ++ rest) = letter_pos (spaced tl ++ rest)).
    { subst tl. cbn [forallb] in Htl. apply andb_prop in Htl as [Hl' _].
      destruct ls; apply gap_scan_nonspace, ascii_letter_not_space, Hl'. }
    rewrite Eg, IH by (subst tl; done). reflexivity.
Qed.

Lemma replace_letters_unfold f prev c s :
  replace_go re_letters f 0 prev (c :: s)
  = match letters_match prev (c :: s) with
    | Some (O, caps) => f [] caps ++ c :: replace_go re_letters f 0 (Some c) s
    | Some (S n, caps) =>
        f (take (S n) (c :: s)) caps ++ replace_go re_letters f n (Some c) s
    | None => c :: replace_go re_letters f 0 (Some c) s
    end.
Proof.
  cbn [replace_go]. rewrite match_letters.
  destruct (letters_match prev (c :: s)) as [[[|n] caps]|]; reflexivity.
Qed.

Lemma replace_letters_nil f prev : replace_go re_letters f 0 prev [] = [].
Proof.
  cbn [replace_go]. rewrite match_letters. unfold letters_match.
  destruct (xorb _ _); reflexivity.
Qed.

Lemma replace_go_skip_last r f u v prev :
  u <> [] ->
  replace_go r f (length u) prev (u ++ v) = replace_go r f 0 (last u) v.
Proof.
  revert prev. induction u as [|c [|c' u] IH]; intros prev Hu; [done| |].
  - reflexivity.
  - cbn [length app replace_go]. rewrite last_cons_cons.
    apply (IH (Some c)). done.
Qed.

Lemma letters_run_replaced ls rest prev :
  (2 <= length ls)%nat -> forallb ascii_letter ls = true ->
  opt_word prev = false -> run_stops rest ->
  replace_go re_letters strip_spaces 0 prev (spaced ls ++ rest)
  = ls ++ replace_go re_letters strip_spaces 0 (last ls) rest.
Proof.
  intros Hlen Hls Hprev Hrest.
  destruct ls as [|l [|l' ls]]; try (cbn in Hlen; lia).
  remember (l' :: ls) as tl eqn:Etl.
  assert (Hl : ascii_letter l = true /\ forallb ascii_letter tl = true).
  { cbn [forallb] in Hls. apply andb_prop in Hls. exact Hls. }
  destruct Hl as [Hl Htl].
  assert (Es : spaced (l :: tl) = l :: SP :: spaced tl)
    by (subst tl; reflexivity).
  assert (Hm : letters_match prev (spaced (l :: tl) ++ rest)
               = Some (length (spaced (l :: tl)), [])).
  { rewrite Es. cbn [app length]. unfold letters_match.
    cbn [head opt_word]. rewrite Hprev, (ascii_letter_word l Hl).
    cbn [xorb]. rewrite (ascii_letter_letter l Hl).
    change (is_space SP) with true. cbn [andb].
    assert (Eg : gap_scan (spaced tl ++ rest) = letter_pos (spaced tl ++ rest)).
    { subst tl. cbn [forallb] in Htl. apply andb_prop in Htl as [Hl' _].
      destruct ls; apply gap_scan_nonspace, ascii_letter_not_space, Hl'. }
    rewrite Eg, (letter_pos_spaced tl rest) by (subst tl; done).
    reflexivity. }
  rewrite Es in Hm |- *. cbn [app] in Hm |- *.
  rewrite replace_letters_unfold, Hm. cbn [length].
  change (l :: SP :: spaced tl ++ rest) with ((l :: SP :: spaced tl) ++ rest).
  rewrite take_app_le by (cbn; lia). rewrite take_ge by (cbn; lia).
  unfold strip_spaces at 1, replace_all. rewrite <- Es.
  rewrite (strip_spaces_spaced (l :: tl) None Hls). f_equal.
  change (S (length (spaced tl))) with (length (SP :: spaced tl)).
  change (SP :: spaced tl ++ rest) with ((SP :: spaced tl) ++ rest).
  rewrite (replace_go_skip_last _ _ (SP :: spaced tl)) by done.
  f_equal.
  assert (Hs : spaced tl <> []) by (subst tl; destruct ls; done).
  destruct (spaced tl) eqn:E; [done|].
  rewrite last_cons_cons, <- E, last_spaced. subst tl.
  rewrite last_cons_cons. reflexivity.
Qed.

Lemma letters_copy_space f prev s :
  replace_go re_letters f 0 prev (SP :: s)
  = SP :: replace_go re_letters f 0 (Some SP) s.
Proof.
  rewrite replace_letters_unfold. unfold letters_match.
  destruct (xorb _ _); [|reflexivity]. destruct s; reflexivity.
Qed.

Lemma letters_inside_word f u :
  forall prev rest, forallb is_word u = true -> opt_word prev = true ->
  replace_go re_letters f 0 prev (u ++ rest)
  = u ++ replace_go re_letters f 0
           (match last u with Some c => Some c | None => prev end) rest.
Proof.
  induction u as [|c u IH]; intros prev rest Hu Hp; [reflexivity|].
  cbn [forallb] in Hu. apply andb_prop in Hu as [Hc Hu].
  cbn [app]. rewrite replace_letters_unfold. unfold letters_match.
  cbn [head opt_word]. rewrite Hp, Hc. cbn [xorb]. f_equal.
  rewrite (IH (Some c) rest Hu Hc). f_equal.
  destruct u as [|c' u]; [reflexivity|]. rewrite last_cons_cons.
  destruct (last (c' :: u)) eqn:E; [reflexivity|].
  apply last_None in E. discriminate.
Qed.

Lemma letters_word_unchanged f w prev rest :
  wordy w = true ->
  replace_go re_letters f 0 prev (w ++ rest)
  = w ++ replace_go re_letters f 0 (last w) rest.
Proof.
  unfold wordy. intros H. apply andb_prop in H as [Hlen Hw].
  apply Nat.leb_le in Hlen.
  destruct w as [|c [|d u]]; try (cbn in Hlen; lia).
  cbn [forallb] in Hw. apply andb_prop in Hw as [Hc Hw'].
  pose proof Hw' as Hdu. cbn [forallb] in Hw'.
  apply andb_prop in Hw' as [Hd _].
  cbn [app]. rewrite replace_letters_unfold. unfold letters_match.
  rewrite (word_not_space d Hd), andb_false_r.
  assert (E : (if xorb (opt_word prev) (opt_word (head (c :: d :: u ++ rest)))
               then None else None) = @None (nat * list jsstring))
    by (destruct (xorb _ _); reflexivity).
  rewrite E. f_equal.
  change (d :: u ++ rest) with ((d :: u) ++ rest).
  rewrite (letters_inside_word f (d :: u) (Some c) rest Hdu Hc).
  rewrite !last_cons_cons.
  destruct (last (d :: u)) eqn:El; [reflexivity|].
  apply last_None in El. discriminate.
Qed.

Lemma words_after_unchanged f words :
  forall prev, forallb wordy words = true ->
  replace_go re_letters f 0 prev (concat (map (cons SP) words))
  = concat (map (cons SP) words).
Proof.
  induction words as [|w words IH]; intros prev H.
  - apply replace_letters_nil.
  - cbn [forallb] in H. apply andb_prop in H as [Hw H].
    cbn [map concat app]. rewrite letters_copy_space. f_equal.
    rewrite (letters_word_unchanged f w _ _ Hw). f_equal. apply IH, H.
Qed.

Lemma words_before_unchanged f words rest :
  forall prev, forallb wordy words = true ->
  exists prev',
    opt_word prev' = opt_word prev && match words with [] => true | _ => false end
    /\ replace_go re_letters f 0 prev
         (concat (map (fun w => w ++ [SP]) words) ++ rest)
       = concat (map (fun w => w ++ [SP]) words)
         ++ replace_go re_letters f 0 prev' rest.
Proof.
  induction words as [|w words IH]; intros prev H.
  - exists prev. rewrite andb_true_r. split; reflexivity.
  - cbn [forallb] in H. apply andb_prop in H as [Hw H].
    destruct (IH (Some SP) H) as (prev' & Hp & E).
    exists prev'. split.
    + rewrite andb_false_r, Hp. destruct words; reflexivity.
    + cbn [map concat]. rewrite <- !app_assoc.
      rewrite (letters_word_unchanged f w _ _ Hw). f_equal.
      cbn [app]. rewrite letters_copy_space. f_equal. exact E.
Qed.

Lemma words_after_stop words :
  forallb wordy words = true -> run_stops (concat (map (cons SP) words)).
Proof.
  destruct words as [|w words]; intros H; [split; [reflexivity|exact I]|].
  cbn [forallb] in H. apply andb_prop in H as [Hw _].
  cbn [map concat app]. split; [reflexivity|]. intros _.
  unfold wordy in Hw. apply andb_prop in Hw as [Hlen Hw].
  apply Nat.leb_le in Hlen.
  destruct w as [|c [|d u]]; try (cbn in Hlen; lia).
  cbn [forallb] in Hw. apply andb_prop in Hw as [Hc Hw].
  apply andb_prop in Hw as [Hd _].
  cbn [app gap_scan final_letter head opt_word].
  rewrite (word_not_space c Hc), (word_not_space d Hd), andb_false_r, Hc, Hd.
  cbn [xorb]. rewrite andb_false_r. reflexivity.
Qed.

(** Where the letter-run step does what its comment says: a run of two
    or more single ASCII letters one space apart, standing between words
    of two or more word characters, is fused into one token, and the
    words on both sides are left as they are; so
    H I S T O R I A S de ejemplo gives HISTORIAS de ejemplo. *)
Theorem letter_run_joined (before : list jsstring) (ls : list N)
    (after : list jsstring) :
  (2 <= length ls)%nat ->
  forallb ascii_letter ls = true ->
  forallb wordy before = true ->
  forallb wordy after = true ->
  paso2 (concat (map (fun w => w ++ [SP]) before)
         ++ spaced ls ++ concat (map (cons SP) after))
  = concat (map (fun w => w ++ [SP]) before)
    ++ ls ++ concat (map (cons SP) after).
Proof.
  intros Hlen Hls Hb Ha. unfold paso2, replace_all.
  destruct (words_before_unchanged strip_spaces before
              (spaced ls ++ concat (map (cons SP) after)) None Hb)
    as (prev' & Hp & ->).
  f_equal.
  rewrite (letters_run_replaced ls _ prev' Hlen Hls);
    [|rewrite Hp; reflexivity|apply words_after_stop, Ha].
  f_equal. apply words_after_unchanged, Ha.
Qed.

Lemma letter_run_joined_witness :
  paso2 (js "H I S T O R I A S de ejemplo") = js "HISTORIAS de ejemplo".
Proof.
  apply (letter_run_joined [] (js "HISTORIAS") [js "de"; js "ejemplo"]).
  - cbn. lia.
  - reflexivity.
  - reflexivity.
  - reflexivity.
Defined.

(** * Further properties of [removeRepeatedLines] *)

Lemma push_unless_last_sublist d line :
  push_unless_last d line `sublist_of` d ++ [line].
Proof.
  unfold push_unless_last. destruct (last d); [case_bool_decide|];
    try reflexivity; apply sublist_inserts_r; reflexivity.
Qed.

Lemma fold_push_sublist lines d :
  fold_left push_unless_last lines d `sublist_of` d ++ lines.
Proof.
  revert d. induction lines as [|l lines IH]; intros d; cbn [fold_left].
  - rewrite app_nil_r. reflexivity.
  - etrans; [apply IH|]. rewrite (cons_middle l d lines), app_assoc.
    apply sublist_app; [apply push_unless_last_sublist|reflexivity].
Qed.

Lemma dedupedLines_sublist lines : dedupedLines lines `sublist_of` lines.
Proof. apply (fold_push_sublist lines []). Qed.

Lemma filter_sublist_of {A} (P : A -> Prop) `{forall x, Decision (P x)} l :
  filter P l `sublist_of` l.
Proof.
  induction l as [|x l IH]; [reflexivity|]. rewrite filter_cons.
  destruct (decide (P x)); [apply sublist_skip|apply sublist_cons]; exact IH.
Qed.

(** The lines of the output are lines of the input, trimmed, in their
    order: the function drops lines, it never adds, changes or moves
    one. *)
Theorem kept_lines_in_order (text : jsstring) :
  textLines (removeRepeatedLines text) `sublist_of` map trim (split_on LF text).
Proof.
  unfold removeRepeatedLines.
  rewrite (textLines_join _ (filteredLines_clean text)).
  unfold filteredLines, originalLines.
  etrans; [apply filter_sublist_of|].
  etrans; [apply dedupedLines_sublist|]. apply filter_sublist_of.
Qed.

Lemma no_adjacent_dup_snoc l x :
  no_adjacent_dup l -> last l <> Some x -> no_adjacent_dup (l ++ [x]).
Proof.
  induction l as [|a l IH]; intros Hl Hx; [cbn; auto|].
  destruct l as [|b l].
  - cbn in *. split; [|auto]. intros ->. apply Hx. reflexivity.
  - destruct Hl as [Hab Hl]. cbn [app no_adjacent_dup]. split; [exact Hab|].
    apply IH; [exact Hl|]. rewrite last_cons_cons in Hx. exact Hx.
Qed.

Lemma push_unless_last_no_adjacent_dup d line :
  no_adjacent_dup d -> no_adjacent_dup (push_unless_last d line).
Proof.
  intros Hd. unfold push_unless_last. destruct (last d) as [l|] eqn:E.
  - case_bool_decide as Hl; [exact Hd|].
    apply no_adjacent_dup_snoc; [exact Hd|]. rewrite E. congruence.
  - apply no_adjacent_dup_snoc; [exact Hd|]. rewrite E. discriminate.
Qed.

Lemma fold_push_no_adjacent_dup lines d :
  no_adjacent_dup d -> no_adjacent_dup (fold_left push_unless_last lines d).
Proof.
  revert d. induction lines as [|l lines IH]; intros d Hd; [exact Hd|].
  cbn [fold_left]. apply IH, push_unless_last_no_adjacent_dup, Hd.
Qed.

Lemma fold_push_fixed lines d :
  no_adjacent_dup lines -> last d <> head lines \/ lines = [] ->
  fold_left push_unless_last lines d = d ++ lines.
Proof.
  revert d. induction lines as [|x t IH]; intros d Hl Hd.
  - cbn. rewrite app_nil_r. reflexivity.
  - destruct Hd as [Hd|Hd]; [|discriminate]. cbn [head] in Hd.
    cbn [fold_left].
    assert (Ep : push_unless_last d x = d ++ [x]).
    { unfold push_unless_last. destruct (last d) as [l|]; [|reflexivity].
      case_bool_decide as E; [|reflexivity]. subst. done. }
    rewrite Ep. destruct Hl as [Hx Ht].
    rewrite IH; [rewrite <- app_assoc; reflexivity|exact Ht|].
    destruct t as [|y t]; [right; reflexivity|left].
    rewrite last_snoc. cbn. congruence.
Qed.

Lemma dedupedLines_fixed lines :
  no_adjacent_dup lines -> dedupedLines lines = lines.
Proof.
  intros H. unfold dedupedLines. rewrite fold_push_fixed; [reflexivity|exact H|].
  destruct lines; [right; reflexivity|left; discriminate].
Qed.

Lemma dedupedLines_no_adjacent_dup lines : no_adjacent_dup (dedupedLines lines).
Proof. apply fold_push_no_adjacent_dup. exact I. Qed.

(** The first loop leaves no two equal lines next to each other, and
    running it on its own result changes nothing. *)
Theorem deduplication_complete (lines : list jsstring) :
  no_adjacent_dup (dedupedLines lines)
  /\ dedupedLines (dedupedLines lines) = dedupedLines lines.
Proof.
  split; [apply dedupedLines_no_adjacent_dup|].
  apply dedupedLines_fixed, dedupedLines_no_adjacent_dup.
Qed.

Lemma filter_all {A} (P : A -> Prop) `{forall x, Decision (P x)} l :
  Forall P l -> filter P l = l.
Proof.
  induction 1 as [|x l Hx Hl IH]; [reflexivity|].
  rewrite filter_cons_True by exact Hx. rewrite IH. reflexivity.
Qed.

Lemma keep_line_few frequency line lines :
  frequency = frequencyOf lines ->
  (occurrences line lines <= 2)%nat -> keep_line frequency line = true.
Proof.
  intros -> Hocc. unfold keep_line. destruct (inherited line) eqn:Hi.
  - rewrite frequencyOf_inherited by exact Hi. reflexivity.
  - rewrite frequencyOf_own by exact Hi.
    destruct (occurrences line lines) as [|n] eqn:E; [reflexivity|].
    cbn [stored_count greater_than_two].
    destruct (2 <? N.of_nat (S n)) eqn:E2; [|reflexivity].
    apply N.ltb_lt in E2. lia.
Qed.

(** When no line occurs more than twice, the frequency filter removes
    nothing: the result is the consecutive-deduplicated lines, joined by
    line feeds. *)
Theorem rare_lines_all_kept (text : jsstring) :
  at_most_twice (originalLines text) = true ->
  removeRepeatedLines text = join [LF] (dedupedLines (originalLines text)).
Proof.
  intros H. unfold removeRepeatedLines, filteredLines. f_equal.
  apply filter_all. apply Forall_forall. intros l Hl.
  apply dedupedLines_elem in Hl.
  unfold at_most_twice in H. rewrite forallb_forall in H.
  apply list_elem_of_In in Hl. specialize (H l Hl). apply Nat.leb_le in H.
  eapply keep_line_few; [reflexivity|exact H].
Qed.

Lemma rare_lines_all_kept_witness :
  removeRepeatedLines (text_of [js "Title"; js "Title"; js " "; js "Body "])
  = join [LF] (dedupedLines
      (originalLines (text_of [js "Title"; js "Title"; js " "; js "Body "]))).
Proof.
  apply (rare_lines_all_kept
           (text_of [js "Title"; js "Title"; js " "; js "Body "])).
  vm_compute. reflexivity.
Defined.

Lemma filter_filter_implied {A} (P Q : A -> Prop)
    `{forall x, Decision (P x)} `{forall x, Decision (Q x)} (l : list A) :
  (forall x, P x -> Q x) -> filter P (filter Q l) = filter P l.
Proof.
  intros HPQ. induction l as [|x l IH]; [reflexivity|].
  rewrite (filter_cons Q). destruct (decide (Q x)) as [HQ|HQ].
  - rewrite !filter_cons. destruct (decide (P x)); rewrite IH; reflexivity.
  - rewrite IH. rewrite filter_cons_False; [reflexivity|]. auto.
Qed.

(** A line of 80 code units or more is kept at every place it has in the
    consecutive-deduplicated sequence, however often it occurs. *)
Theorem long_lines_all_kept (text : jsstring) :
  filter long_line (filteredLines text)
  = filter long_line (dedupedLines (originalLines text)).
Proof.
  unfold filteredLines. apply filter_filter_implied.
  intros l Hl. unfold long_line in Hl. unfold keep_line.
  replace (length l <? 80)%nat with false
    by (symmetry; apply Nat.ltb_ge; exact Hl).
  rewrite andb_false_r. reflexivity.
Qed.

(** The frequency table: under a line that is not the name of an
    inherited property it holds the number of occurrences of the line, and
    nothing when the line does not occur. *)
Theorem frequency_table_counts (lines : list jsstring) (line : jsstring) :
  inherited line = false ->
  obj_get (frequencyOf lines) line
  = match occurrences line lines with
    | O => None
    | S n => Some (FNum (N.of_nat (S n)))
    end.
Proof.
  intros H. rewrite (frequencyOf_own lines line H).
  destruct (occurrences line lines); reflexivity.
Qed.

Lemma frequency_table_counts_witness :
  obj_get (frequencyOf [js "a"; js "b"; js "a"]) (js "a") = Some (FNum 2)
  /\ obj_get (frequencyOf [js "a"; js "b"; js "a"]) (js "c") = None.
Proof.
  split.
  - apply (frequency_table_counts [js "a"; js "b"; js "a"] (js "a")).
    vm_compute. reflexivity.
  - apply (frequency_table_counts [js "a"; js "b"; js "a"] (js "c")).
    vm_compute. reflexivity.
Defined.

Lemma trim_start_all_space s : forallb is_space s = true -> trim_start s = [].
Proof.
  induction s as [|c s IH]; [reflexivity|]. cbn [forallb trim_start].
  intros H. apply andb_prop in H as [-> H]. auto.
Qed.

Lemma trim_all_space s : forallb is_space s = true -> trim s = [].
Proof. intros H. unfold trim. rewrite trim_start_all_space by exact H. reflexivity. Qed.

Lemma split_on_elem sep s l x : l ∈ split_on sep s -> x ∈ l -> x ∈ s.
Proof.
  revert l. induction s as [|c s IH]; intros l Hl Hx; cbn [split_on] in Hl.
  - apply list_elem_of_singleton in Hl. subst. inversion Hx.
  - destruct (c =? sep).
    + apply elem_of_cons in Hl as [-> |Hl]; [inversion Hx|].
      right. eauto.
    + destruct (split_on_cons_inv sep s) as (l0 & ls & E). rewrite E in *.
      apply elem_of_cons in Hl as [-> |Hl].
      * apply elem_of_cons in Hx as [-> |Hx]; [left|right].
        apply (IH l0); [left|exact Hx].
      * right. apply (IH l); [right; exact Hl|exact Hx].
Qed.

Lemma originalLines_all_space text :
  forallb is_space text = true -> originalLines text = [].
Proof.
  intros H. unfold originalLines.
  assert (F : Forall (fun l => l = []) (map trim (split_on LF text))).
  { apply Forall_forall. intros l Hl.
    apply list_elem_of_fmap in Hl as (raw & -> & Hraw).
    apply trim_all_space. apply forallb_forall. intros x Hx.
    rewrite forallb_forall in H. apply H.
    apply list_elem_of_In. apply list_elem_of_In in Hx.
    eapply split_on_elem; eassumption. }
  induction F as [|l ls Hl _ IH]; [reflexivity|].
  subst l. rewrite filter_cons_False by (cbn; discriminate). exact IH.
Qed.

(** A text of white space only, the empty text included, gives the empty
    string. *)
Theorem blank_text_gives_empty (text : jsstring) :
  forallb is_space text = true -> removeRepeatedLines text = [].
Proof.
  intros H. unfold removeRepeatedLines, filteredLines.
  rewrite (originalLines_all_space text H). reflexivity.
Qed.

Lemma blank_text_gives_empty_witness :
  removeRepeatedLines [SP; LF; 9; LF; LF; 160] = [].
Proof. apply blank_text_gives_empty. reflexivity. Defined.

Lemma originalLines_of_clean ls :
  Forall clean_line ls -> originalLines (join [LF] ls) = ls.
Proof.
  intros H. unfold originalLines. destruct ls as [|l ls]; [reflexivity|].
  rewrite split_join;
    [|done|eapply Forall_impl; [exact H|]; intros ? (_ & _ & ?); assumption].
  assert (E : map trim (l :: ls) = l :: ls).
  { clear -H. induction H as [|x xs (_ & Hx & _) _ IH]; [reflexivity|].
    cbn [map]. rewrite Hx, IH. reflexivity. }
  rewrite E. apply filter_all. eapply Forall_impl; [exact H|].
  intros x (Hx & _). destruct x; [done|reflexivity].
Qed.

(** Only the trimmed non-empty lines of the text count: rewriting the text
    as those lines, one per line, gives the same lines to work on and the
    same result. *)
Theorem result_depends_on_lines_only (text : jsstring) :
  originalLines (join [LF] (originalLines text)) = originalLines text
  /\ removeRepeatedLines (join [LF] (originalLines text))
     = removeRepeatedLines text.
Proof.
  assert (E : originalLines (join [LF] (originalLines text))
              = originalLines text)
    by apply originalLines_of_clean, originalLines_clean.
  split; [exact E|]. unfold removeRepeatedLines, filteredLines.
  rewrite E. reflexivity.
Qed.

(** * What the rewriting steps leave in place *)

Section KeepUnits.

Variable keep : N -> bool.
Hypothesis keep_space : forall c, is_space c = true -> keep c = false.

Lemma filter_keep_spaces s :
  Forall (fun c => is_space c = true) s -> List.filter keep s = [].
Proof.
  induction 1 as [|c s Hc _ IH]; [reflexivity|]. cbn [List.filter].
  rewrite (keep_space c Hc). exact IH.
Qed.

Lemma filter_keep_reverse (s : jsstring) :
  List.filter keep (reverse s) = reverse (List.filter keep s).
Proof.
  induction s as [|c s IH]; [reflexivity|].
  rewrite reverse_cons, List.filter_app, IH. cbn [List.filter].
  destruct (keep c); [rewrite reverse_cons|rewrite app_nil_r]; reflexivity.
Qed.

Lemma filter_keep_trim_start s :
  List.filter keep (trim_start s) = List.filter keep s.
Proof.
  induction s as [|c s IH]; [reflexivity|]. cbn [trim_start].
  destruct (is_space c) eqn:E; [|reflexivity]. cbn [List.filter].
  rewrite (keep_space c E). exact IH.
Qed.

Lemma filter_keep_trim s : List.filter keep (trim s) = List.filter keep s.
Proof.
  unfold trim, trim_end.
  rewrite filter_keep_reverse, filter_keep_trim_start, filter_keep_reverse.
  rewrite reverse_involutive. apply filter_keep_trim_start.
Qed.

Section Replace.

Variable r : regex.
Variable f : jsstring -> list jsstring -> jsstring.
Hypothesis f_keeps :
  forall prev s len caps, match_here r prev s = Some (len, caps) ->
  List.filter keep (f (take len s) caps) = List.filter keep (take len s).

Lemma filter_keep_replace_go s :
  forall skip prev,
  List.filter keep (replace_go r f skip prev s) = List.filter keep (drop skip s).
Proof.
  induction s as [|c s IH]; intros skip prev.
  - destruct skip; [|reflexivity]. cbn [replace_go drop].
    destruct (match_here r prev []) as [[len caps]|] eqn:E; [|reflexivity].
    rewrite app_nil_r, (f_keeps _ _ _ _ E). destruct len; reflexivity.
  - destruct skip as [|n]; [|cbn [replace_go drop]; apply IH].
    cbn [replace_go drop].
    destruct (match_here r prev (c :: s)) as [[len caps]|] eqn:E.
    + rewrite List.filter_app, (f_keeps _ _ _ _ E).
      destruct len as [|n].
      * cbn [take List.filter app]. rewrite IH. reflexivity.
      * rewrite IH, <- List.filter_app.
        change (take (S n) (c :: s) ++ drop n s)
          with (take (S n) (c :: s) ++ drop (S n) (c :: s)).
        rewrite take_drop. reflexivity.
    + cbn [List.filter]. rewrite IH. reflexivity.
Qed.

Lemma filter_keep_replace_all s :
  List.filter keep (replace_all r f s) = List.filter keep s.
Proof. apply (filter_keep_replace_go s O None). Qed.

End Replace.

Lemma filter_keep_space_match r M t s len caps :
  (forall prev s, match_here r prev s = M s) ->
  (forall s len caps, M s = Some (len, caps) ->
     (0 < len)%nat /\ Forall (fun c => is_space c = true) (take len s)) ->
  Forall (fun c => is_space c = true) t ->
  forall prev, match_here r prev s = Some (len, caps) ->
  List.filter keep (by_const t (take len s) caps)
  = List.filter keep (take len s).
Proof.
  intros HM Hsp Ht prev E. rewrite HM in E. apply Hsp in E as [_ E].
  unfold by_const. rewrite (filter_keep_spaces t Ht).
  rewrite (filter_keep_spaces _ E). reflexivity.
Qed.

Lemma filter_keep_collapseBlankLines s :
  List.filter keep (collapseBlankLines s) = List.filter keep s.
Proof.
  apply filter_keep_replace_all. intros prev t len caps.
  apply (filter_keep_space_match re_blank blank_match [LF; LF] t len caps
           match_blank blank_match_spaces).
  repeat constructor.
Qed.

Lemma filter_keep_paso1 s : List.filter keep (paso1 s) = List.filter keep s.
Proof.
  unfold paso1. rewrite filter_keep_trim. apply filter_keep_collapseBlankLines.
Qed.

Lemma spaces_match_spaces s len caps :
  spaces_match s = Some (len, caps) ->
  (0 < len)%nat /\ Forall (fun c => is_space c = true) (take len s).
Proof.
  destruct s as [|a s]; cbn [spaces_match]; [discriminate|].
  destruct (is_space a) eqn:Ea; [|discriminate].
  intros [= <- <-]. split; [lia|]. cbn. constructor; [exact Ea|].
  apply span_take_all.
Qed.

Lemma filter_keep_strip_spaces m caps :
  List.filter keep (strip_spaces m caps) = List.filter keep m.
Proof.
  unfold strip_spaces. apply filter_keep_replace_all. intros prev t len caps'.
  apply (filter_keep_space_match re_spaces spaces_match [] t len caps'
           match_spaces spaces_match_spaces).
  constructor.
Qed.

Lemma filter_keep_paso2 s : List.filter keep (paso2 s) = List.filter keep s.
Proof.
  apply filter_keep_replace_all. intros prev t len caps _.
  apply filter_keep_strip_spaces.
Qed.

Lemma filter_keep_paso3 s : List.filter keep (paso3 s) = List.filter keep s.
Proof.
  apply filter_keep_replace_all. intros prev t len caps.
  apply (filter_keep_space_match re_spaces2 spaces2_match [SP] t len caps
           match_spaces2 spaces2_match_spaces).
  repeat constructor.
Qed.

End KeepUnits.

(** Pasos 1 to 3 only touch white space: the other code units of the
    text come out unchanged and in the same order. *)
Theorem pasos_1_to_3_keep_visible (s : jsstring) :
  visible (paso1 s) = visible s
  /\ visible (paso2 s) = visible s
  /\ visible (paso3 s) = visible s
  /\ visible (paso3 (paso2 (paso1 s))) = visible s.
Proof.
  assert (K : forall c, is_space c = true -> negb (is_space c) = false)
    by (intros c ->; reflexivity).
  unfold visible.
  rewrite !(filter_keep_paso3 _ K), !(filter_keep_paso2 _ K),
    !(filter_keep_paso1 _ K).
  repeat split.
Qed.

Section KeepSolid.

Variable keep : N -> bool.
Hypothesis keep_space : forall c, is_space c = true -> keep c = false.
Hypothesis keep_hyphen : keep HYPHEN = false.

Lemma hyphen_eol_match_shape s len caps :
  hyphen_eol_match s = Some (len, caps) ->
  exists t, take len s = HYPHEN :: t /\ Forall (fun c => is_space c = true) t.
Proof.
  destruct s as [|c s]; cbn [hyphen_eol_match]; [discriminate|].
  destruct (HYPHEN =? c) eqn:Ec; [|discriminate].
  apply N.eqb_eq in Ec. subst c.
  destruct (upto_last_LF s) as [n|] eqn:E; [|discriminate].
  intros [= <- <-]. apply upto_last_LF_spaces in E as [_ Hn].
  exists (take (n + span_len is_space (drop n s)) s). split; [reflexivity|].
  rewrite <- take_take_drop.
  apply Forall_app. split; [exact Hn|apply span_take_all].
Qed.

Lemma filter_keep_hyphen_eol s :
  List.filter keep (hyphen_eol s) = List.filter keep s.
Proof.
  apply (filter_keep_replace_all keep). intros prev t len caps E.
  rewrite match_hyphen_eol in E.
  apply hyphen_eol_match_shape in E as (u & -> & Hu).
  unfold by_const. cbn [List.filter]. rewrite keep_hyphen.
  rewrite (filter_keep_spaces keep keep_space u Hu). reflexivity.
Qed.

Lemma word_after_spaces_take s n b :
  word_after_spaces s = Some (n, b) ->
  exists t, take (S n) s = t ++ [b]
            /\ Forall (fun c => is_space c = true) t.
Proof.
  revert n. induction s as [|c s IH]; intros n; cbn [word_after_spaces];
    [discriminate|].
  destruct (is_space c) eqn:Ec.
  - destruct (word_after_spaces s) as [[m b']|]; [|discriminate].
    intros [= <- <-]. destruct (IH m eq_refl) as (t & Et & Ht).
    exists (c :: t). split; [|constructor; assumption].
    change (take (S (S m)) (c :: s)) with (c :: take (S m) s).
    rewrite Et. reflexivity.
  - destruct (is_word c); [|discriminate]. intros [= <- <-].
    exists []. split; [reflexivity|constructor].
Qed.

Lemma filter_keep_hyphen_mid s :
  List.filter keep (hyphen_mid s) = List.filter keep s.
Proof.
  apply (filter_keep_replace_all keep). intros prev t len caps E.
  rewrite match_hyphen_mid in E.
  destruct t as [|a [|h [|c t]]]; cbn [hyphen_mid_match] in E;
    try discriminate.
  destruct (is_word a); [|discriminate].
  destruct (HYPHEN =? h) eqn:Eh; [|discriminate].
  destruct (is_space c) eqn:Ec; [|discriminate]. cbn [andb] in E.
  destruct (word_after_spaces t) as [[n b]|] eqn:Ew; [|discriminate].
  injection E as <- <-. apply N.eqb_eq in Eh. subst h.
  destruct (word_after_spaces_take t n b Ew) as (u & Eu & Hu).
  replace (n + 4)%nat with (S (S (S (S n)))) by lia.
  change (take (S (S (S (S n)))) (a :: HYPHEN :: c :: t))
    with (a :: HYPHEN :: c :: take (S n) t).
  rewrite Eu. unfold by_groups_1_2, capture. cbn [lookup list_lookup default app].
  unfold id. cbn [app List.filter]. rewrite keep_hyphen, (keep_space c Ec).
  rewrite !List.filter_app, (filter_keep_spaces keep keep_space u Hu).
  reflexivity.
Qed.

Lemma filter_keep_paso4 s : List.filter keep (paso4 s) = List.filter keep s.
Proof.
  unfold paso4. rewrite filter_keep_hyphen_mid. apply filter_keep_hyphen_eol.
Qed.

End KeepSolid.

(** Paso 4 only takes out hyphens and white space, and so do Pasos 1 to 4
    together: every other code unit of the text reaches the line filter
    unchanged and in its place. *)
Theorem pasos_1_to_4_keep_solid (s : jsstring) :
  solid (hyphen_eol s) = solid s
  /\ solid (hyphen_mid s) = solid s
  /\ solid (paso4 (paso3 (paso2 (paso1 s)))) = solid s.
Proof.
  assert (K : forall c, is_space c = true ->
                negb (is_space c) && negb (c =? HYPHEN) = false)
    by (intros c ->; reflexivity).
  unfold solid.
  rewrite (filter_keep_paso4 _ K eq_refl), (filter_keep_paso3 _ K),
    (filter_keep_paso2 _ K), (filter_keep_paso1 _ K),
    (filter_keep_hyphen_eol _ K eq_refl), (filter_keep_hyphen_mid _ K eq_refl).
  repeat split.
Qed.

Lemma single_spaced_middle a x y b :
  single_spaced (a ++ x :: y :: b) = true -> is_space x && is_space y = false.
Proof.
  intros H. apply single_spaced_suffix in H. cbn [single_spaced head opt_space] in H.
  apply andb_prop in H as [H _]. apply negb_true_iff in H. exact H.
Qed.

(** After Paso 3 no two units of white space stand next to each other;
    in particular the text holds no two line feeds in a row, so no
    paragraph break or page separator is left in it. *)
Theorem paso3_leaves_single_spaces (s : jsstring) :
  single_spaced (paso3 s) = true
  /\ forall a b, paso3 s <> a ++ [LF; LF] ++ b.
Proof.
  split; [apply paso3_single_spaced|]. intros a b E.
  pose proof (paso3_single_spaced s) as H. rewrite E in H.
  apply single_spaced_middle in H. discriminate.
Qed.

(** * The end-of-line rule, once applied *)

Lemma hyphen_eol_nil : hyphen_eol [] = [].
Proof. reflexivity. Qed.

Lemma hyphen_eol_cons c s :
  hyphen_eol (c :: s)
  = match hyphen_eol_match (c :: s) with
    | Some _ => hyphen_eol (trim_start s)
    | None => c :: hyphen_eol s
    end.
Proof.
  unfold hyphen_eol, replace_all.
  rewrite (replace_go_unfold _ _ _ match_hyphen_eol).
  destruct (hyphen_eol_match (c :: s)) as [[len caps]|] eqn:E.
  - cbn [hyphen_eol_match] in E. destruct (HYPHEN =? c); [|discriminate].
    destruct (upto_last_LF s) as [n|] eqn:En; [|discriminate].
    injection E as <- <-. rewrite (upto_last_LF_within_span _ _ En).
    unfold by_const at 1. cbn [app]. rewrite trim_start_drop_span.
    set (k := span_len is_space s).
    rewrite <- (take_drop k s) at 1.
    assert (Hk : length (take k s) = k) by apply length_take_le, span_len_le.
    rewrite <- Hk at 1.
    apply (replace_go_skip _ _ _ match_hyphen_eol eq_refl).
  - apply f_equal, (replace_go_prev _ _ _ match_hyphen_eol eq_refl).
Qed.

Lemma hyphen_eol_match_cons c s :
  hyphen_eol_match (c :: s)
  = if HYPHEN =? c
    then match upto_last_LF s with Some n => Some (S (n + span_len is_space (drop n s)), []) | None => None end
    else None.
Proof. reflexivity. Qed.

Lemma trim_start_length s : (length (trim_start s) <= length s)%nat.
Proof.
  induction s as [|c s IH]; cbn [trim_start length]; [lia|].
  destruct (is_space c); cbn [length]; lia.
Qed.

Lemma upto_last_LF_trim_start s : upto_last_LF (trim_start s) = None.
Proof. apply upto_last_LF_head, trim_start_head. Qed.

Lemma upto_last_LF_cons_None c s :
  upto_last_LF (c :: s) = None <->
  is_space c = false \/ (upto_last_LF s = None /\ (LF =? c) = false).
Proof.
  cbn [upto_last_LF]. destruct (is_space c) eqn:Ec.
  - destruct (upto_last_LF s); [|destruct (LF =? c)]; split; intros H;
      try discriminate; try tauto; auto;
      destruct H as [H|[H1 H2]]; discriminate.
  - split; auto.
Qed.

Lemma hyphen_eol_keeps_no_LF_ahead n :
  forall s, (length s <= n)%nat ->
  upto_last_LF s = None -> upto_last_LF (hyphen_eol s) = None.
Proof.
  induction n as [|n IH]; intros s Hn Hs.
  - destruct s; [reflexivity|cbn in Hn; lia].
  - destruct s as [|c s]; [reflexivity|]. cbn [length] in Hn.
    rewrite hyphen_eol_cons.
    destruct (hyphen_eol_match (c :: s)) eqn:E.
    + apply IH; [|apply upto_last_LF_trim_start].
      pose proof (trim_start_length s). lia.
    + apply upto_last_LF_cons_None.
      apply upto_last_LF_cons_None in Hs as [Hs|[Hs Hc]]; [left; exact Hs|].
      right. split; [|exact Hc]. apply IH; [lia|exact Hs].
Qed.

Lemma eol_free_nil : eol_free [].
Proof.
  intros t1 t2 E. symmetry in E. apply app_eq_nil in E as [_ ->]. reflexivity.
Qed.

Lemma eol_free_cons c s :
  hyphen_eol_match (c :: s) = None -> eol_free s -> eol_free (c :: s).
Proof.
  intros Hc Hs t1 t2 E. destruct t1 as [|d t1].
  - cbn in E. subst t2. exact Hc.
  - injection E as -> E. eapply Hs, E.
Qed.

Lemma hyphen_eol_eol_free n :
  forall s, (length s <= n)%nat -> eol_free (hyphen_eol s).
Proof.
  induction n as [|n IH]; intros s Hn.
  - destruct s; [apply eol_free_nil|cbn in Hn; lia].
  - destruct s as [|c s]; [apply eol_free_nil|]. cbn [length] in Hn.
    rewrite hyphen_eol_cons.
    destruct (hyphen_eol_match (c :: s)) eqn:E.
    + apply IH. pose proof (trim_start_length s). lia.
    + apply eol_free_cons; [|apply IH; lia].
      rewrite hyphen_eol_match_cons in E |- *.
      destruct (HYPHEN =? c); [|reflexivity].
      destruct (upto_last_LF s) eqn:Es; [discriminate|].
      rewrite (hyphen_eol_keeps_no_LF_ahead (length s) s (le_n _) Es).
      reflexivity.
Qed.

Lemma upto_last_LF_before_LF w b :
  forallb is_space w = true -> upto_last_LF (w ++ LF :: b) <> None.
Proof.
  intros Hw. induction w as [|c w IH]; cbn [app upto_last_LF].
  - rewrite LF_is_space. destruct (upto_last_LF b); discriminate.
  - cbn [forallb] in Hw. apply andb_prop in Hw as [-> Hw].
    destruct (upto_last_LF (w ++ LF :: b)); [discriminate|].
    exfalso. apply (IH Hw). reflexivity.
Qed.

(** Once the end-of-line rule has run, no hyphen is left that is followed,
    directly or after white space, by a line feed; running the rule again
    changes nothing. *)
Theorem hyphen_eol_complete (s : jsstring) :
  (forall a w b, forallb is_space w = true ->
     hyphen_eol s <> a ++ HYPHEN :: w ++ LF :: b)
  /\ hyphen_eol (hyphen_eol s) = hyphen_eol s.
Proof.
  pose proof (hyphen_eol_eol_free (length s) s (le_n _)) as F. split.
  - intros a w b Hw E. specialize (F a (HYPHEN :: w ++ LF :: b) E).
    rewrite hyphen_eol_match_cons, N.eqb_refl in F.
    destruct (upto_last_LF (w ++ LF :: b)) eqn:Eu; [discriminate|].
    exact (upto_last_LF_before_LF w b Hw Eu).
  - apply (replace_go_no_match _ _ _ match_hyphen_eol eq_refl). exact F.
Qed.

(** * Pages without text *)

Lemma visible_nil_all_space s : visible s = [] -> forallb is_space s = true.
Proof.
  induction s as [|c s IH]; [reflexivity|]. unfold visible. cbn [List.filter forallb].
  destruct (is_space c); [exact IH|discriminate].
Qed.

Lemma all_space_visible_nil s : forallb is_space s = true -> visible s = [].
Proof.
  induction s as [|c s IH]; [reflexivity|]. unfold visible. cbn [List.filter forallb].
  intros H. apply andb_prop in H as [-> H]. exact (IH H).
Qed.

Lemma join_all_space items :
  forallb (forallb is_space) items = true ->
  forallb is_space (join [SP] items) = true.
Proof.
  induction items as [|i items IH]; [reflexivity|]. cbn [forallb].
  intros H. apply andb_prop in H as [Hi H].
  destruct items as [|i' items]; [exact Hi|].
  rewrite join_cons_cons, !forallb_app, Hi. cbn [andb].
  apply andb_true_intro. split; [reflexivity|exact (IH H)].
Qed.

Lemma fullTextOf_all_space pages :
  pages_blank pages = true -> forallb is_space (fullTextOf pages) = true.
Proof.
  unfold fullTextOf. intros H.
  assert (G : forall acc, forallb is_space acc = true ->
    forallb is_space
      (fold_left (fun fullText p => fullText ++ pageText p ++ [LF; LF])
         pages acc) = true).
  { induction pages as [|p pages IH]; intros acc Hacc; [exact Hacc|].
    cbn [pages_blank forallb] in H. apply andb_prop in H as [Hp H].
    cbn [fold_left]. apply (IH H).
    rewrite !forallb_app, Hacc. unfold pageText.
    rewrite (join_all_space p Hp). reflexivity. }
  apply G. reflexivity.
Qed.

Lemma paso1_all_space s : forallb is_space s = true -> paso1 s = [].
Proof.
  intros H. unfold paso1. apply trim_all_space, visible_nil_all_space.
  assert (K : forall c, is_space c = true -> negb (is_space c) = false)
    by (intros c ->; reflexivity).
  unfold visible. rewrite (filter_keep_collapseBlankLines _ K).
  apply all_space_visible_nil, H.
Qed.

(** A document whose pages hold no text but white space (no page, pages
    without items, items of blanks) gives the empty string. *)
Theorem blank_pages_give_empty_text (pages : list page) :
  pages_blank pages = true -> extractTextFromPDF (Some pages) = Returned [].
Proof.
  intros H. unfold extractTextFromPDF, cleanText.
  rewrite (paso1_all_space _ (fullTextOf_all_space pages H)). reflexivity.
Qed.

Lemma blank_pages_give_empty_text_witness :
  extractTextFromPDF (Some [[[SP; 9]; []]; []; [[LF]]]) = Returned [].
Proof. apply blank_pages_give_empty_text. reflexivity. Defined.

(** * The cleanings of [index.js] *)

Lemma squeeze_go_shape s :
  forall skip prev,
  skip = O \/ opt_space (head (drop skip s)) = false ->
  single_spaced (replace_go re_spaces (by_const [SP]) skip prev s) = true
  /\ only_SP (replace_go re_spaces (by_const [SP]) skip prev s)
  /\ (opt_space (head (replace_go re_spaces (by_const [SP]) skip prev s))
      = true -> opt_space (head (drop skip s)) = true).
Proof.
  induction s as [|c s IH]; intros skip prev Hskip.
  - rewrite (replace_go_nil _ _ _ match_spaces eq_refl).
    split; [reflexivity|split]; [constructor|discriminate].
  - destruct skip as [|n].
    + rewrite (replace_go_unfold _ _ _ match_spaces). cbn [drop head].
      cbn [spaces_match]. destruct (is_space c) eqn:Ec.
      * assert (Hd : opt_space (head (drop (span_len is_space s) s)) = false).
        { pose proof (span_drop_head is_space s) as Hh.
          destruct (head (drop (span_len is_space s) s)); [exact Hh|reflexivity]. }
        destruct (IH (span_len is_space s) (Some c) (or_intror Hd))
          as (IH1 & IH2 & IH3). clear IH Hskip.
        set (out := replace_go _ _ (span_len _ _) _ _) in *.
        unfold by_const. cbn [app single_spaced head opt_space].
        split; [|split].
        -- rewrite IH1, andb_true_r. apply negb_true_iff.
           change (is_space SP) with true. cbn [andb].
           destruct (opt_space (head out)) eqn:Eo; [|reflexivity].
           rewrite (IH3 eq_refl) in Hd. discriminate.
        -- constructor; [reflexivity|exact IH2].
        -- intros _. exact Ec.
      * destruct (IH O (Some c) (or_introl eq_refl)) as (IH1 & IH2 & IH3).
        clear IH Hskip.
        set (out := replace_go _ _ O _ _) in *.
        cbn [single_spaced head opt_space]. rewrite Ec, IH1.
        split; [reflexivity|split].
        -- constructor; [congruence|exact IH2].
        -- discriminate.
    + cbn [replace_go drop]. apply IH. right.
      destruct Hskip as [?|H]; [discriminate|exact H].
Qed.

Lemma squeeze_single_spaced s : single_spaced (squeeze s) = true.
Proof. apply (squeeze_go_shape s O None). left. reflexivity. Qed.

Lemma squeeze_only_SP s : only_SP (squeeze s).
Proof. apply (squeeze_go_shape s O None). left. reflexivity. Qed.

Lemma squeeze_fixed s :
  single_spaced s = true -> only_SP s -> squeeze s = s.
Proof.
  unfold squeeze, replace_all. generalize (@None N).
  induction s as [|c s IH]; intros prev Hs Ho.
  - apply (replace_go_nil _ _ _ match_spaces eq_refl).
  - rewrite (replace_go_unfold _ _ _ match_spaces). cbn [spaces_match].
    cbn [single_spaced] in Hs. apply andb_prop in Hs as [Hc Hs].
    inversion Ho as [|? ? Hsp Ho']; subst.
    destruct (is_space c) eqn:Ec.
    + rewrite (Hsp eq_refl) in *. cbn [andb] in Hc.
      apply negb_true_iff in Hc.
      assert (E0 : span_len is_space s = O).
      { destruct s as [|d s]; [reflexivity|]. cbn in Hc |- *. rewrite Hc.
        reflexivity. }
      rewrite E0. unfold by_const. cbn [app]. f_equal. apply IH; assumption.
    + f_equal. apply IH; assumption.
Qed.

(** In both cleanings of [index.js] the blank-line replacement is dead:
    after [/\s+/g] has turned every run of white space into one space,
    [/\n\s*\n/g] finds nothing to replace. *)
Theorem blank_line_step_after_squeeze_is_dead (s : jsstring) :
  collapseBlankLines (squeeze s) = squeeze s
  /\ Index1.cleanText s = trim (squeeze s)
  /\ Index2.cleanText s = trim (strip_control (squeeze s)).
Proof.
  assert (E : collapseBlankLines (squeeze s) = squeeze s)
    by apply collapseBlankLines_fixed, squeeze_single_spaced.
  unfold Index1.cleanText, Index2.cleanText. rewrite E. repeat split.
Qed.

Lemma single_spaced_prefix t1 t2 :
  single_spaced (t1 ++ t2) = true -> single_spaced t1 = true.
Proof.
  induction t1 as [|a t1 IH]; [reflexivity|]. cbn [app single_spaced].
  intros H. apply andb_prop in H as [Ha H]. rewrite (IH H), andb_true_r.
  destruct t1 as [|b t1]; [|exact Ha].
  cbn [head opt_space]. rewrite andb_false_r. reflexivity.
Qed.

Lemma trim_start_is_suffix s : exists w, s = w ++ trim_start s.
Proof.
  induction s as [|c s (w & IH)]; [exists []; reflexivity|].
  cbn [trim_start]. destruct (is_space c); [|exists []; reflexivity].
  exists (c :: w). cbn. f_equal. exact IH.
Qed.

Lemma trim_end_is_prefix s : exists w, s = trim_end s ++ w.
Proof.
  unfold trim_end. destruct (trim_start_is_suffix (reverse s)) as (w & E).
  exists (reverse w). apply (f_equal reverse) in E.
  rewrite reverse_involutive, reverse_app in E. exact E.
Qed.

Lemma trim_single_spaced s : single_spaced s = true -> single_spaced (trim s) = true.
Proof.
  intros H. unfold trim.
  destruct (trim_start_is_suffix s) as (w & E). rewrite E in H.
  apply single_spaced_suffix in H.
  destruct (trim_end_is_prefix (trim_start s)) as (w' & E').
  rewrite E' in H. apply single_spaced_prefix in H. exact H.
Qed.

Lemma trim_Forall (P : N -> Prop) s : Forall P s -> Forall P (trim s).
Proof.
  rewrite !Forall_forall. intros H x Hx. apply H, trim_elem, Hx.
Qed.

Lemma only_SP_no_LF s : only_SP s -> LF ∉ s.
Proof.
  intros H Hin. unfold only_SP in H. rewrite Forall_forall in H.
  specialize (H LF Hin eq_refl). discriminate.
Qed.

Lemma filter_keep_squeeze keep s :
  (forall c, is_space c = true -> keep c = false) ->
  List.filter keep (squeeze s) = List.filter keep s.
Proof.
  intros K. unfold squeeze. apply filter_keep_replace_all.
  intros prev t len caps.
  apply (filter_keep_space_match _ K re_spaces spaces_match [SP] t len caps
           match_spaces spaces_match_spaces).
  repeat constructor.
Qed.

(** The first cleaning of [index.js] returns the text on one line: its
    white space is single plain spaces between other characters, none at
    either end, and no line feed at all; the other code units are kept in
    order; cleaning the result again changes nothing. *)
Theorem index1_clean_text_shape (s : jsstring) :
  single_spaced (Index1.cleanText s) = true
  /\ only_SP (Index1.cleanText s)
  /\ edge_free (Index1.cleanText s)
  /\ (LF ∉ Index1.cleanText s)
  /\ visible (Index1.cleanText s) = visible s
  /\ Index1.cleanText (Index1.cleanText s) = Index1.cleanText s.
Proof.
  assert (E : forall t, Index1.cleanText t = trim (squeeze t)).
  { intros t. unfold Index1.cleanText.
    rewrite collapseBlankLines_fixed by apply squeeze_single_spaced.
    reflexivity. }
  assert (H1 : single_spaced (Index1.cleanText s) = true)
    by (rewrite E; apply trim_single_spaced, squeeze_single_spaced).
  assert (H2 : only_SP (Index1.cleanText s))
    by (rewrite E; apply trim_Forall, squeeze_only_SP).
  assert (H3 : edge_free (Index1.cleanText s))
    by (rewrite E; apply trim_edge_free).
  repeat split; try assumption; try apply H3.
  - apply only_SP_no_LF, H2.
  - assert (K : forall c, is_space c = true -> negb (is_space c) = false)
      by (intros c ->; reflexivity).
    rewrite E. unfold visible. rewrite (filter_keep_trim _ K).
    apply filter_keep_squeeze, K.
  - rewrite (E (Index1.cleanText s)), (squeeze_fixed _ H1 H2).
    apply trim_fixed, H3.
Qed.

Lemma match_class p prev s : match_here (RClass p) prev s = class_match p s.
Proof.
  rewrite match_here_outcome, rmatch_class. unfold step_char, class_match.
  cbn [ms_rest]. destruct s as [|c s]; [reflexivity|].
  destruct (p c); reflexivity.
Qed.

(** Replacing the units of a class by a fixed string, unit by unit. *)
Lemma replace_class_const p t s :
  replace_all (RClass p) (by_const t) s
  = flat_map (fun c => if p c then t else [c]) s.
Proof.
  unfold replace_all. generalize (@None N).
  induction s as [|c s IH]; intros prev.
  - apply (replace_go_nil _ _ _ (match_class p) eq_refl).
  - rewrite (replace_go_unfold _ _ _ (match_class p)). cbn [class_match flat_map].
    destruct (p c); unfold by_const; rewrite IH; reflexivity.
Qed.

Lemma strip_control_filter s :
  strip_control s = List.filter (fun c => negb (is_control c)) s.
Proof.
  unfold strip_control, re_control. rewrite replace_class_const.
  induction s as [|c s IH]; [reflexivity|]. cbn [flat_map List.filter].
  destruct (is_control c); cbn [negb app]; rewrite IH; reflexivity.
Qed.

Lemma filter_Forall_kept (P : N -> Prop) (q : N -> bool) (s : jsstring) :
  Forall P s -> Forall P (List.filter q s).
Proof.
  induction 1 as [|c s Hc _ IH]; [constructor|]. cbn [List.filter].
  destruct (q c); [constructor; assumption|assumption].
Qed.

Lemma filter_satisfies (q : N -> bool) (s : jsstring) :
  Forall (fun c => q c = true) (List.filter q s).
Proof.
  induction s as [|c s IH]; [constructor|]. cbn [List.filter].
  destruct (q c) eqn:E; [constructor; assumption|assumption].
Qed.

Lemma filter_filter_comm (p q : N -> bool) (s : jsstring) :
  List.filter p (List.filter q s) = List.filter (fun c => q c && p c) s.
Proof.
  induction s as [|c s IH]; [reflexivity|]. cbn [List.filter].
  destruct (q c); cbn [andb List.filter]; [destruct (p c)|]; rewrite IH;
    reflexivity.
Qed.

(** The second cleaning of [index.js]: the result holds no control
    character of the class and no white space but plain spaces (so no tab,
    line feed or carriage return either), has none at its ends, and keeps
    every code unit that is neither white space nor such a control
    character, in order. *)
Theorem index2_clean_text_shape (s : jsstring) :
  Forall (fun c => is_control c = false) (Index2.cleanText s)
  /\ only_SP (Index2.cleanText s)
  /\ (LF ∉ Index2.cleanText s)
  /\ edge_free (Index2.cleanText s)
  /\ printable (Index2.cleanText s) = printable s.
Proof.
  assert (E : Index2.cleanText s
              = trim (List.filter (fun c => negb (is_control c)) (squeeze s))).
  { unfold Index2.cleanText.
    rewrite collapseBlankLines_fixed by apply squeeze_single_spaced.
    rewrite strip_control_filter. reflexivity. }
  assert (H2 : only_SP (Index2.cleanText s)).
  { rewrite E. apply trim_Forall, filter_Forall_kept, squeeze_only_SP. }
  split; [|split; [exact H2|split; [apply only_SP_no_LF, H2|split]]].
  - rewrite E. apply trim_Forall.
    eapply Forall_impl; [apply filter_satisfies|].
    intros c Hc. cbn in Hc. apply negb_true_iff in Hc. exact Hc.
  - rewrite E. apply trim_edge_free.
  - assert (K : forall c, is_space c = true ->
                  negb (is_space c) && negb (is_control c) = false)
      by (intros c ->; reflexivity).
    rewrite E. unfold printable. rewrite (filter_keep_trim _ K).
    rewrite filter_filter_comm.
    rewrite <- (filter_keep_squeeze _ s K).
    apply List.filter_ext. intros c.
    destruct (is_space c), (is_control c); reflexivity.
Qed.

Lemma squeeze_all_space s :
  forallb is_space s = true -> forallb is_space (squeeze s) = true.
Proof.
  intros H. apply visible_nil_all_space.
  assert (K : forall c, is_space c = true -> negb (is_space c) = false)
    by (intros c ->; reflexivity).
  unfold visible. rewrite (filter_keep_squeeze _ s K).
  apply all_space_visible_nil, H.
Qed.

Lemma filter_all_space (q : N -> bool) s :
  forallb is_space s = true -> forallb is_space (List.filter q s) = true.
Proof.
  induction s as [|c s IH]; [reflexivity|]. cbn [forallb List.filter].
  intros H. apply andb_prop in H as [Hc H].
  destruct (q c); cbn [forallb]; rewrite ?Hc; auto.
Qed.

(** Both versions of [index.js] return the empty string for a document
    whose pages hold no text but white space, a document of no page
    included. *)
Theorem index_blank_pages_give_empty_text (pages : list page) :
  pages_blank pages = true ->
  Index1.extractTextFromPDF (Some pages) = Returned []
  /\ Index2.extractTextFromPDF (Some pages) = Returned [].
Proof.
  intros H. pose proof (fullTextOf_all_space pages H) as Hf.
  pose proof (squeeze_all_space _ Hf) as Hs.
  assert (Ec : collapseBlankLines (squeeze (fullTextOf pages))
               = squeeze (fullTextOf pages))
    by apply collapseBlankLines_fixed, squeeze_single_spaced.
  unfold Index1.extractTextFromPDF, Index2.extractTextFromPDF,
    Index1.cleanText, Index2.cleanText.
  rewrite Ec, strip_control_filter.
  rewrite (trim_all_space _ Hs), (trim_all_space _ (filter_all_space _ _ Hs)).
  split; reflexivity.
Qed.

Lemma index_blank_pages_give_empty_text_witness :
  Index1.extractTextFromPDF (Some [[[SP; 9]; []]; []; [[LF]]]) = Returned []
  /\ Index2.extractTextFromPDF (Some [[[SP; 9]; []]; []; [[LF]]]) = Returned [].
Proof. apply index_blank_pages_give_empty_text. reflexivity. Defined.

(** * The [/convert] handler *)

Lemma starts_with_spec p s :
  starts_with p s = true <-> exists b, s = p ++ b.
Proof.
  revert s. induction p as [|a p IH]; intros s; cbn [starts_with].
  - split; [eauto|reflexivity].
  - destruct s as [|c s].
    + split; [discriminate|]. intros [b E]. discriminate.
    + rewrite andb_true_iff, N.eqb_eq, IH. split.
      * intros [-> [b ->]]. eauto.
      * intros [b E]. injection E as -> ->. eauto.
Qed.

Lemma includes_spec needle hay :
  includes needle hay = true <-> exists a b, hay = a ++ needle ++ b.
Proof.
  induction hay as [|c hay IH]; cbn [includes].
  - rewrite orb_false_r, starts_with_spec. split.
    + intros [b E]. exists [], b. exact E.
    + intros (a & b & E). destruct a; [eauto|discriminate].
  - rewrite orb_true_iff, starts_with_spec, IH. split.
    + intros [[b E]|(a & b & E)].
      * exists [], b. exact E.
      * exists (c :: a), b. rewrite E. reflexivity.
    + intros (a & b & E). destruct a as [|d a].
      * left. eauto.
      * right. injection E as -> E. eauto.
Qed.

(** ** The name of the output file *)

Lemma timestampOf_map iso :
  timestampOf iso = (fun c => if colon_or_dot c then HYPHEN else c) <$> iso.
Proof.
  unfold timestampOf. rewrite replace_class_const.
  induction iso as [|c iso IH]; [reflexivity|]. cbn [flat_map fmap list_fmap].
  rewrite IH. destruct (colon_or_dot c); reflexivity.
Qed.

(** The time stamp of the file name has the length of the ISO string it
    is made from and holds no colon and no dot; it differs from the ISO
    string only where that has one of the two, where it has a hyphen.  So
    the generated file name has the dots of the base name and the one of
    its extension, and no others. *)
Theorem timestamp_has_no_colon_or_dot (fileBaseName iso : jsstring) :
  length (timestampOf iso) = length iso
  /\ Forall (fun c => colon_or_dot c = false) (timestampOf iso)
  /\ (forall i c, iso !! i = Some c ->
        timestampOf iso !! i = Some (if colon_or_dot c then HYPHEN else c))
  /\ length (filter (fun c => c = DOT) (outputFilename fileBaseName iso))
     = S (length (filter (fun c => c = DOT) fileBaseName)).
Proof.
  unfold jsstring in *.
  assert (Clean : Forall (fun c => colon_or_dot c = false) (timestampOf iso)).
  { rewrite timestampOf_map. apply Forall_fmap, Forall_forall. intros c _.
    cbn. destruct (colon_or_dot c) eqn:E; [reflexivity|exact E]. }
  split; [rewrite timestampOf_map; apply length_fmap|].
  split; [exact Clean|]. split.
  - intros i c Hi. rewrite timestampOf_map.
    rewrite list_lookup_fmap, Hi. reflexivity.
  - unfold outputFilename. rewrite !filter_app, !length_app.
    assert (Stamp : length (filter (fun c => c = DOT) (timestampOf iso)) = O).
    { revert Clean. generalize (timestampOf iso). intros l Clean.
      induction Clean as [|c l Hc _ IH]; [reflexivity|].
      unfold jsstring in *. rewrite filter_cons. destruct (decide (c = DOT)) as [->|_]; [|exact IH].
      discriminate. }
    unfold jsstring in *. rewrite Stamp.
    change (length (filter (fun c => c = DOT) [HYPHEN])) with O.
    change (length (filter (fun c => c = DOT) (js ".txt"))) with 1%nat.
    lia.
Qed.

(** ** What the handler answers *)

Lemma header_value_timestampOf iso :
  header_value (timestampOf iso) = header_value iso.
Proof.
  rewrite timestampOf_map. unfold header_value.
  induction iso as [|c iso IH]; [reflexivity|].
  cbn [fmap list_fmap forallb]. rewrite IH. f_equal.
  destruct (colon_or_dot c) eqn:E; [|reflexivity].
  unfold colon_or_dot in E. apply orb_prop in E as [E|E];
    apply N.eqb_eq in E; subst c; reflexivity.
Qed.

(** The header of a download can be set exactly when the base name and
    the date string hold no code unit that Node refuses: the fixed parts
    of the value and of the file name are plain ASCII. *)
Lemma header_value_contentDisposition fileBaseName iso :
  header_value (contentDisposition (outputFilename fileBaseName iso))
  = header_value fileBaseName && header_value iso.
Proof.
  unfold contentDisposition, outputFilename, header_value.
  change (QUOTE :: (fileBaseName ++ [HYPHEN] ++ timestampOf iso ++ js ".txt")
          ++ [QUOTE])
    with ([QUOTE] ++ (fileBaseName ++ [HYPHEN] ++ timestampOf iso ++ js ".txt")
          ++ [QUOTE]).
  rewrite !forallb_app.
  change (forallb header_char (timestampOf iso))
    with (header_value (timestampOf iso)).
  rewrite header_value_timestampOf. unfold header_value.
  change (forallb header_char (js "attachment; filename=")) with true.
  change (forallb header_char [QUOTE]) with true.
  change (forallb header_char [HYPHEN]) with true.
  change (forallb header_char (js ".txt")) with true.
  cbn [andb]. rewrite !andb_true_r. reflexivity.
Qed.

Lemma format_is_download (fmt : option jsstring) :
  bool_decide
    (match fmt with Some ((_ :: _) as f) => f | _ => js "json" end
     = js "download")
  = bool_decide (fmt = Some (js "download")).
Proof.
  apply bool_decide_ext. destruct fmt as [[|c fmt]|].
  - split; discriminate.
  - split; [intros E; f_equal; exact E|intros E; congruence].
  - split; discriminate.
Qed.

(** The handler answers 200, 400 or 500, and 200 exactly when there was
    no upload error, a file was sent, its MIME type contains pdf, pdf.js
    could read it and, for a download, the header with the file name
    could be set.  It then returns the cleaned text of the document, as
    an attachment when the format is download and as JSON with the length
    of the text otherwise.  Every other answer carries an error message
    and no text; a download whose file name Node refuses in a header is
    answered 500 with the message of the [catch] clause. *)
Theorem convert_answers (baseName : jsstring -> jsstring) (iso : jsstring)
    (req : request) :
  let resp := convert baseName iso req in
  (status resp = 200 <-> accepted baseName iso req)
  /\ (status resp = 200 \/ status resp = 400 \/ status resp = 500)
  /\ (status resp <> 200 -> exists message, content resp = JsonError message)
  /\ (forall file pages,
        req_error req = None -> req_file req = Some file ->
        includes (js "pdf") (mimetype file) = true ->
        document file = Some pages ->
        let text := cleanText (fullTextOf pages) in
        let name := outputFilename (baseName (originalname file)) iso in
        content resp
        = if bool_decide (req_format req = Some (js "download"))
          then if header_value (baseName (originalname file))
                  && header_value iso
               then Attachment (contentDisposition name) text
               else JsonError msg_processing
          else JsonText name (length text) text).
Proof.
  cbn zeta. unfold convert.
  assert (Use : forall st message,
    st = 400 \/ st = 500 -> ~ accepted baseName iso req ->
    (req_error req = None ->
     forall file, req_file req = Some file ->
     includes (js "pdf") (mimetype file) = true ->
     forall pages, document file = Some pages ->
     req_format req = Some (js "download")
     /\ header_value (baseName (originalname file)) && header_value iso = false
     /\ message = msg_processing) ->
    let resp := Response st (JsonError message) in
    (status resp = 200 <-> accepted baseName iso req)
    /\ (status resp = 200 \/ status resp = 400 \/ status resp = 500)
    /\ (status resp <> 200 -> exists m, content resp = JsonError m)
    /\ (forall file pages,
          req_error req = None -> req_file req = Some file ->
          includes (js "pdf") (mimetype file) = true ->
          document file = Some pages ->
          content resp
          = if bool_decide (req_format req = Some (js "download"))
            then if header_value (baseName (originalname file))
                    && header_value iso
                 then Attachment
                        (contentDisposition
                           (outputFilename (baseName (originalname file)) iso))
                        (cleanText (fullTextOf pages))
                 else JsonError msg_processing
            else JsonText (outputFilename (baseName (originalname file)) iso)
                   (length (cleanText (fullTextOf pages)))
                   (cleanText (fullTextOf pages)))).
  { intros st message Hst Hna Hdl. cbn zeta. cbn [status content].
    split; [split|split; [|split]].
    - intros ->. destruct Hst; discriminate.
    - intros H. contradiction.
    - destruct Hst; auto.
    - intros _. exists message. reflexivity.
    - intros file pages He Hf Hm Hd.
      destruct (Hdl He file Hf Hm pages Hd) as (Hfmt & Hh & ->).
      rewrite (bool_decide_eq_true_2 _ Hfmt), Hh. reflexivity. }
  cbn zeta in Use.
  destruct req as [err file fmt]. cbn [req_error req_file req_format] in *.
  rewrite format_is_download.
  destruct err as [[|message|]|].
  - apply Use; [auto|intros [H _]; discriminate|discriminate].
  - apply Use; [auto|intros [H _]; discriminate|discriminate].
  - apply Use; [auto|intros [H _]; discriminate|discriminate].
  - destruct file as [[mt on doc]|]; cbn [mimetype originalname document].
    2: { apply Use; [auto| |intros _ f H; discriminate].
         intros (_ & f & p & H & _). discriminate. }
    destruct (includes (js "pdf") mt) eqn:Ei; cbn [negb].
    2: { apply Use; [auto| |].
         - intros (_ & f & p & [= <-] & Hm & _).
           apply includes_spec in Hm. cbn [mimetype] in Hm. congruence.
         - intros _ f [= <-] Hm. cbn [mimetype] in Hm. congruence. }
    destruct doc as [pages|]; cbn [extractTextFromPDF].
    2: { apply Use; [auto| |].
         - intros (_ & f & p & [= <-] & _ & Hd & _). discriminate.
         - intros _ f [= <-] _ p Hd. discriminate. }
    rewrite header_value_contentDisposition.
    match goal with |- (status ?r = 200 <-> _) /\ _ => set (resp := r) end.
    destruct (decide (fmt = Some (js "download"))) as [Hfmt|Hfmt].
    + destruct (header_value (baseName on) && header_value iso) eqn:Eh.
      * assert (Hr : resp = Response 200
                        (Attachment
                           (contentDisposition (outputFilename (baseName on) iso))
                           (cleanText (fullTextOf pages)))).
        { subst resp. rewrite (bool_decide_eq_true_2 _ Hfmt). reflexivity. }
        clearbody resp. subst resp. clear Use. cbn [status content].
        split; [split; [intros _|reflexivity]|].
        { split; [reflexivity|]. exists (Upload mt on (Some pages)), pages.
          split; [reflexivity|]. split; [apply includes_spec, Ei|].
          split; [reflexivity|]. intros _. exact Eh. }
        split; [left; reflexivity|]. split.
        { intros H. exfalso. apply H. reflexivity. }
        intros f p _ [= <-] _ [= <-]. cbn [originalname].
        rewrite (bool_decide_eq_true_2 _ Hfmt), Eh. reflexivity.
      * assert (Hr : resp = Response 500 (JsonError msg_processing)).
        { subst resp. rewrite (bool_decide_eq_true_2 _ Hfmt). reflexivity. }
        clearbody resp. subst resp. apply Use; [auto| |].
        { intros (_ & f & p & [= <-] & _ & _ & Hh).
          cbn [originalname] in Hh. rewrite (Hh Hfmt) in Eh. discriminate. }
        intros _ f [= <-] _ p _. cbn [originalname]. auto.
    + assert (Hr : resp = Response 200
                      (JsonText (outputFilename (baseName on) iso)
                         (length (cleanText (fullTextOf pages)))
                         (cleanText (fullTextOf pages)))).
      { subst resp. rewrite (bool_decide_eq_false_2 _ Hfmt). reflexivity. }
      clearbody resp. subst resp. clear Use. cbn [status content].
      split; [split; [intros _|reflexivity]|].
      { split; [reflexivity|]. exists (Upload mt on (Some pages)), pages.
        split; [reflexivity|]. split; [apply includes_spec, Ei|].
        split; [reflexivity|]. intros H. contradiction. }
      split; [left; reflexivity|]. split.
      { intros H. exfalso. apply H. reflexivity. }
      intros f p _ [= <-] _ [= <-]. cbn [originalname].
      rewrite (bool_decide_eq_false_2 _ Hfmt). reflexivity.
Qed.

(** ** The three versions of the handler *)

(** The handler of the second version of [index.js] answers as the final
    one does, error messages included, up to the text; the handler of the
    first version does so whenever the upload raised no error.  On a
    request that passes the checks each version sends the text cleaned by
    its own [extractTextFromPDF], and the JSON answer announces the length
    of that text; a download whose header cannot be set gets no text from
    any of them. *)
Theorem handlers_agree (baseName : jsstring -> jsstring) (iso : jsstring)
    (req : request) :
  let r0 := convert baseName iso req in
  let r1 := Index1.convert baseName iso (req_file req) (req_format req) in
  let r2 := Index2.convert baseName iso req in
  same_envelope r0 r2
  /\ (forall message,
        content r0 = JsonError message -> content r2 = JsonError message)
  /\ (req_error req = None -> same_envelope r0 r1)
  /\ (forall file pages,
        req_error req = None -> req_file req = Some file ->
        includes (js "pdf") (mimetype file) = true ->
        document file = Some pages ->
        let download := bool_decide (req_format req = Some (js "download")) in
        let refused :=
          download
          && negb (header_value (baseName (originalname file))
                   && header_value iso) in
        let announced (text : jsstring) :=
          if download then None else Some (length text) in
        let sent (text : jsstring) :=
          if refused then None else Some (text, announced text) in
        answer_text (content r0) = sent (cleanText (fullTextOf pages))
        /\ answer_text (content r1) = sent (Index1.cleanText (fullTextOf pages))
        /\ answer_text (content r2) = sent (Index2.cleanText (fullTextOf pages))).
Proof.
  cbn zeta. unfold convert, Index1.convert, Index2.convert, same_envelope.
  destruct req as [err file fmt]. cbn [req_error req_file req_format].
  rewrite !format_is_download.
  destruct err as [[|message|]|]; cbn [status content].
  1-3: (split; [split; [reflexivity|exact I]|]; split; [intros m E; exact E|];
        split; [discriminate|]; intros f p E; discriminate).
  destruct file as [[mt on doc]|]; cbn [mimetype originalname document].
  2: { cbn [status content].
       split; [split; [reflexivity|exact I]|]. split; [intros m E; exact E|].
       split; [intros _; split; [reflexivity|exact I]|].
       intros f p _ E. discriminate. }
  destruct (includes (js "pdf") mt) eqn:Ei; cbn [negb].
  2: { cbn [status content].
       split; [split; [reflexivity|exact I]|]. split; [intros m E; exact E|].
       split; [intros _; split; [reflexivity|exact I]|].
       intros f p _ [= <-] Hm. cbn [mimetype] in Hm. congruence. }
  destruct doc as [pages|];
    cbn [extractTextFromPDF Index1.extractTextFromPDF
         Index2.extractTextFromPDF].
  2: { cbn [status content].
       split; [split; [reflexivity|exact I]|]. split; [intros m E; exact E|].
       split; [intros _; split; [reflexivity|exact I]|].
       intros f p _ [= <-] _ Hd. discriminate. }
  rewrite !header_value_contentDisposition.
  destruct (bool_decide (fmt = Some (js "download")));
    [destruct (header_value (baseName on) && header_value iso) eqn:Eh|];
    cbn [status content answer_text].
  - split; [split; reflexivity|]. split; [discriminate|].
    split; [intros _; split; reflexivity|].
    intros f p _ [= <-] _ [= <-]. cbn [originalname]. rewrite Eh.
    cbn [andb negb]. repeat split.
  - split; [split; [reflexivity|exact I]|]. split; [intros m E; exact E|].
    split; [intros _; split; [reflexivity|exact I]|].
    intros f p _ [= <-] _ [= <-]. cbn [originalname]. rewrite Eh.
    cbn [andb negb]. repeat split.
  - split; [split; reflexivity|]. split; [discriminate|].
    split; [intros _; split; reflexivity|].
    intros f p _ [= <-] _ [= <-]. cbn [andb]. repeat split.
Qed.

(** * Paragraph breaks through the pipeline *)




















(** ** Paso 3 on a break *)





(** ** No blank line in the output *)




(** ** The whole cleaning on two paragraphs of plain words *)

















